(** * Issue grouping helpers of the issue store: key composer, set differ,
      action planners and filter evaluator.

    The development embeds the helper functions of the issue store
    ([getGroupKey], [getGroupIssueKeyActions], [getSubGroupIssueKeyActions],
    [getDifference], [checkIssueDateFilter], [getFilteredIssues]) as Rocq
    functions and states their properties.  JavaScript values are modelled
    as the helpers use them: strings as [string], arrays as [list], an
    optional argument as [option], and the plain object used as an
    accumulator as an insertion-ordered property list. *)

From Stdlib Require Import List String Ascii Bool Arith NArith Lia Permutation.
Import ListNotations.
Open Scope string_scope.

Set Implicit Arguments.

(* ================================================================== *)
(** * JavaScript primitives used by the helpers *)
(* ================================================================== *)

Module JS.

(** Truthiness of an optional string: [undefined] and the empty string
    are falsy, every other string is truthy. *)
Definition truthy (v : option string) : bool :=
  match v with
  | Some s => negb (s =? EmptyString)
  | None => false
  end.

(** [v !== s] for an optional string [v] and a string literal [s]. *)
Definition strict_neq (v : option string) (s : string) : bool :=
  match v with
  | Some x => negb (x =? s)
  | None => true
  end.

(** String conversion inside a template literal. *)
Definition toString (v : option string) : string :=
  match v with
  | Some s => s
  | None => "undefined"
  end.

(** An optional string with the empty string counted as absent. *)
Definition dropEmpty (v : option string) : option string :=
  match v with
  | Some s => if s =? EmptyString then None else Some s
  | None => None
  end.

(** [Array.prototype.includes] on an array of strings. *)
Definition includes (l : list string) (x : string) : bool :=
  existsb (String.eqb x) l.

(** [Array.prototype.push] of one element. *)
Definition push (A : Type) (l : list A) (x : A) : list A := (l ++ [x])%list.

(** lodash [uniq]: a duplicate-free copy that keeps, for every value, its
    first occurrence. *)
Definition uniq (l : list string) : list string :=
  fold_left (fun result value => if includes result value then result else push result value)
            l [].

(** ** Plain objects used as string-keyed maps

    An object is the list of its own properties in creation order. *)
Section Objects.
Variable V : Type.

Definition object := list (string * V).

Fixpoint get (k : string) (o : object) : option V :=
  match o with
  | [] => None
  | (k', v) :: o' => if k' =? k then Some v else get k o'
  end.

(** Overwrite in place when the property exists, create it at the end
    otherwise. *)
Fixpoint put (k : string) (v : V) (o : object) : object :=
  match o with
  | [] => [(k, v)]
  | (k', v') :: o' => if k' =? k then (k', v) :: o' else (k', v') :: put k v o'
  end.

(** [o[k] = v].  An assignment to ["__proto__"] goes to the accessor
    inherited from [Object.prototype]: it replaces the prototype and
    creates no own property. *)
Definition set (k : string) (v : V) (o : object) : object :=
  if k =? "__proto__" then o else put k v o.

(** *** Property enumeration order

    Own keys that are array indices (canonical decimal numerals below
    [2^32 - 1]) come first, in ascending numeric order; the other keys
    follow in creation order. *)
Definition is_digit (c : ascii) : bool :=
  (48 <=? nat_of_ascii c)%nat && (nat_of_ascii c <=? 57)%nat.

Fixpoint digits_value (s : string) (acc : N) : option N :=
  match s with
  | EmptyString => Some acc
  | String c s' =>
      if is_digit c
      then digits_value s' (10 * acc + N.of_nat (nat_of_ascii c - 48))%N
      else None
  end.

Definition array_index (s : string) : option N :=
  match s with
  | EmptyString => None
  | String c s' =>
      if Ascii.eqb c "0"%char && negb (s' =? EmptyString) then None
      else match digits_value s 0%N with
           | Some n => if (n <? 4294967295)%N then Some n else None
           | None => None
           end
  end.

Definition is_index (p : string * V) : bool :=
  match array_index (fst p) with Some _ => true | None => false end.

Definition index_of (p : string * V) : N :=
  match array_index (fst p) with Some n => n | None => 0%N end.

Fixpoint insert_by_index (p : string * V) (l : object) : object :=
  match l with
  | [] => [p]
  | q :: l' => if (index_of p <=? index_of q)%N then p :: q :: l'
               else q :: insert_by_index p l'
  end.

Definition sort_by_index (l : object) : object :=
  fold_right insert_by_index [] l.

Definition ownProperties (o : object) : object :=
  (sort_by_index (filter is_index o) ++ filter (fun p => negb (is_index p)) o)%list.

(** [Object.values(o)]. *)
Definition values (o : object) : list V := map snd (ownProperties o).

(** [Object.keys(o)]. *)
Definition keys (o : object) : list string := map fst (ownProperties o).

(** One property write [o[fst w] = snd w], and the value a sequence of
    writes leaves under a key: that of the last write to it. *)
Definition write (o : object) (w : string * V) : object :=
  set (fst w) (snd w) o.

Definition lastWrite (k : string) (ws : list (string * V)) : option V :=
  option_map snd (find (fun w => fst w =? k) (rev ws)).

End Objects.

End JS.

(* ================================================================== *)
(** * Data model *)
(* ================================================================== *)

(** Modelled from the spec: the enumeration [EIssueGroupedAction] is
    declared in [base-issues.store], which is not part of the sources at
    hand.  The helpers use its members [ADD] and [DELETE]; both are taken
    to be truthy values, so that [!action] holds exactly when the optional
    argument is omitted. *)
Inductive EIssueGroupedAction : Type := ADD | DELETE.

(** An object [{ [ADD]: string[], [DELETE]: string[] }]. *)
Record TGroupedActions : Type := mkActions {
  onADD : list string;
  onDELETE : list string
}.

(** [actions[a]] *)
Definition at_action (actions : TGroupedActions) (a : EIssueGroupedAction) : list string :=
  match a with
  | ADD => onADD actions
  | DELETE => onDELETE actions
  end.

(** An entry [{ path, action }] of an action list. *)
Record TIssueKeyAction : Type := mkKeyAction {
  path : list string;
  action : EIssueGroupedAction
}.

(* ================================================================== *)
(** * Key composer and action planners *)
(* ================================================================== *)

Section Grouping.

(** The constant [ALL_ISSUES] comes from the constants package; its value
    is not fixed here. *)
Variable ALL_ISSUES : string.

Definition getGroupKey (groupId subGroupId : option string) : string :=
  if JS.truthy groupId && JS.truthy subGroupId && JS.strict_neq subGroupId "null"
  then JS.toString groupId ++ "_" ++ JS.toString subGroupId
  else if JS.truthy groupId then JS.toString groupId
  else ALL_ISSUES.

Definition getGroupIssueKeyActions (addArray deleteArray : list string)
  : list TIssueKeyAction :=
  let issueKeyActions := [] in
  let issueKeyActions :=
    fold_left (fun acc addKey => JS.push acc (mkKeyAction [addKey] ADD))
              addArray issueKeyActions in
  let issueKeyActions :=
    fold_left (fun acc deleteKey => JS.push acc (mkKeyAction [deleteKey] DELETE))
              deleteArray issueKeyActions in
  issueKeyActions.

(** The accumulator of the two-dimension planner after its four loops. *)
Definition subGroupIssueKeyActionsObject
    (groupActionsArray subGroupActionsArray : TGroupedActions)
    (previousIssueGroupProperties currentIssueGroupProperties
     previousIssueSubGroupProperties currentIssueSubGroupProperties : list string)
  : JS.object TIssueKeyAction :=
  let issueKeyActions : JS.object TIssueKeyAction := [] in
  let issueKeyActions :=
    fold_left (fun acc addKey =>
      fold_left (fun acc subGroupProperty =>
        JS.set (getGroupKey (Some addKey) (Some subGroupProperty))
               (mkKeyAction [addKey; subGroupProperty] ADD) acc)
        currentIssueSubGroupProperties acc)
      (at_action groupActionsArray ADD) issueKeyActions in
  let issueKeyActions :=
    fold_left (fun acc deleteKey =>
      fold_left (fun acc subGroupProperty =>
        JS.set (getGroupKey (Some deleteKey) (Some subGroupProperty))
               (mkKeyAction [deleteKey; subGroupProperty] DELETE) acc)
        previousIssueSubGroupProperties acc)
      (at_action groupActionsArray DELETE) issueKeyActions in
  let issueKeyActions :=
    fold_left (fun acc addKey =>
      fold_left (fun acc groupProperty =>
        JS.set (getGroupKey (Some groupProperty) (Some addKey))
               (mkKeyAction [groupProperty; addKey] ADD) acc)
        currentIssueGroupProperties acc)
      (at_action subGroupActionsArray ADD) issueKeyActions in
  let issueKeyActions :=
    fold_left (fun acc deleteKey =>
      fold_left (fun acc groupProperty =>
        JS.set (getGroupKey (Some groupProperty) (Some deleteKey))
               (mkKeyAction [groupProperty; deleteKey] DELETE) acc)
        previousIssueGroupProperties acc)
      (at_action subGroupActionsArray DELETE) issueKeyActions in
  issueKeyActions.

Definition getSubGroupIssueKeyActions
    (groupActionsArray subGroupActionsArray : TGroupedActions)
    (previousIssueGroupProperties currentIssueGroupProperties
     previousIssueSubGroupProperties currentIssueSubGroupProperties : list string)
  : list TIssueKeyAction :=
  JS.values
    (subGroupIssueKeyActionsObject groupActionsArray subGroupActionsArray
       previousIssueGroupProperties currentIssueGroupProperties
       previousIssueSubGroupProperties currentIssueSubGroupProperties).

(** The bucket key of an entry: the key composer applied to the two
    components of its path. *)
Definition keyOfAction (e : TIssueKeyAction) : string :=
  getGroupKey (nth_error (path e) 0) (nth_error (path e) 1).

(** The property writes of the four loops, in program order. *)
Definition plannedWrites
    (groupActionsArray subGroupActionsArray : TGroupedActions)
    (previousIssueGroupProperties currentIssueGroupProperties
     previousIssueSubGroupProperties currentIssueSubGroupProperties : list string)
  : list (string * TIssueKeyAction) :=
  flat_map (fun addKey =>
    map (fun subGroupProperty =>
           (getGroupKey (Some addKey) (Some subGroupProperty),
            mkKeyAction [addKey; subGroupProperty] ADD))
        currentIssueSubGroupProperties)
    (at_action groupActionsArray ADD)
  ++ flat_map (fun deleteKey =>
    map (fun subGroupProperty =>
           (getGroupKey (Some deleteKey) (Some subGroupProperty),
            mkKeyAction [deleteKey; subGroupProperty] DELETE))
        previousIssueSubGroupProperties)
    (at_action groupActionsArray DELETE)
  ++ flat_map (fun addKey =>
    map (fun groupProperty =>
           (getGroupKey (Some groupProperty) (Some addKey),
            mkKeyAction [groupProperty; addKey] ADD))
        currentIssueGroupProperties)
    (at_action subGroupActionsArray ADD)
  ++ flat_map (fun deleteKey =>
    map (fun groupProperty =>
           (getGroupKey (Some groupProperty) (Some deleteKey),
            mkKeyAction [groupProperty; deleteKey] DELETE))
        previousIssueGroupProperties)
    (at_action subGroupActionsArray DELETE).

(** The key composer as the specification words it: "supplied" read as
    "not [undefined]". *)
Definition composeKey_spec (groupValue subGroupValue : option string) : string :=
  match groupValue, subGroupValue with
  | Some g, Some s => if s =? "null" then g else g ++ "_" ++ s
  | Some g, None => g
  | None, _ => ALL_ISSUES
  end.

End Grouping.

(** The set differ. *)
Definition getDifference (current previous : list string)
    (action : option EIssueGroupedAction) : TGroupedActions :=
  let ADD_ :=
    fold_left (fun acc currentValue =>
                 if JS.includes previous currentValue then acc
                 else JS.push acc currentValue)
              current [] in
  let DELETE_ :=
    fold_left (fun acc previousValue =>
                 if JS.includes current previousValue then acc
                 else JS.push acc previousValue)
              previous [] in
  match action with
  | None => mkActions ADD_ DELETE_
  | Some ADD => mkActions (JS.uniq ADD_) []
  | Some DELETE => mkActions [] (JS.uniq DELETE_)
  end.

(** Lists read as sets: equality of sets and intersection, as the
    completeness law words them. *)
Definition set_equal (l1 l2 : list string) : Prop :=
  forall x, In x l1 <-> In x l2.

Definition intersect (l1 l2 : list string) : list string :=
  filter (JS.includes l2) l1.

(* ================================================================== *)
(** * Filter evaluator *)
(* ================================================================== *)

(** Modelled from the spec: the types [TIssue], [IIssueFilterOptions] and
    [IIssueDisplayFilterOptions] come from the types package, which is not
    part of the sources at hand.  An issue is a flat mapping from property
    names to values that are single-valued or lists of strings; a filter
    specification maps filter keys to lists of raw values.

    The value of an issue property, as far as the filter evaluator tells
    values apart: [undefined], [null], a string, or an array of strings. *)
Inductive TValue : Type :=
| VUndefined
| VNull
| VString (s : string)
| VArray (l : list string).

(** An issue, read through [issue[key]]. *)
Definition TIssue : Type := string -> TValue.

(** The own enumerable properties of a filters object, as
    [Object.entries] lists them; a value is an array of strings or
    null/undefined ([None]). *)
Definition IIssueFilterOptions : Type := list (string * option (list string)).

(** The display filters, of which only [sub_issue] is read. *)
Record IIssueDisplayFilterOptions : Type := mkDisplayFilters {
  sub_issue : option bool
}.

(** Truthiness of a property value. *)
Definition value_truthy (v : TValue) : bool :=
  match v with
  | VUndefined | VNull => false
  | VString s => negb (s =? EmptyString)
  | VArray _ => true
  end.

(** [filterValues.includes(issueValue)] for an array of strings
    [filterValues]: only a string can be found in it. *)
Definition includes_value (filterValues : list string) (issueValue : TValue) : bool :=
  match issueValue with
  | VString s => JS.includes filterValues s
  | _ => false
  end.

(** The non-null assertion [filterValues!] on a value that is not null at
    the place of use. *)
Definition non_null (filterValues : option (list string)) : list string :=
  match filterValues with
  | Some l => l
  | None => []
  end.

Section Filtering.

(** The date helpers [parseDateFilter] and [checkDateCriteria] and the
    table [FILTER_TO_ISSUE_MAP] are imported by the evaluator; they are
    taken here as total functions of unknown content. *)
Variables TDate TFilterDate TDateType : Type.
Variable newDate : TValue -> TDate.
Variable parseDateFilter : string -> TDateType * TFilterDate.
Variable checkDateCriteria : TDate -> TFilterDate -> TDateType -> bool.
Variable FILTER_TO_ISSUE_MAP : string -> option string.

Definition checkIssueDateFilter (issue : TIssue) (filterKey : string)
    (dateFilters : option (list string)) : bool :=
  match dateFilters with
  | None => true
  | Some dateFilters =>
      if (List.length dateFilters =? 0)%nat then true
      else
        let issueDate := issue filterKey in
        if negb (value_truthy issueDate) then false
        else
          forallb (fun filterValue =>
                     let '(type, date) := parseDateFilter filterValue in
                     checkDateCriteria (newDate issueDate) date type)
                  dateFilters
  end.

(** [value && value.length > 0] *)
Definition isActiveFilter (entry : string * option (list string)) : bool :=
  match snd entry with
  | Some value => (0 <? List.length value)%nat
  | None => false
  end.

(** The callback of [activeFilters.every]. *)
Definition filterCondition (issue : TIssue)
    (entry : string * option (list string)) : bool :=
  let '(filterKey, filterValues) := entry in
  if (filterKey =? "start_date") || (filterKey =? "target_date")
  then checkIssueDateFilter issue filterKey filterValues
  else
    let issueKey := FILTER_TO_ISSUE_MAP filterKey in
    if negb (JS.truthy issueKey) then true
    else
      let issueValue := issue (JS.toString issueKey) in
      match issueValue with
      | VArray issueValue =>
          existsb (fun filterValue => JS.includes issueValue filterValue)
                  (non_null filterValues)
      | _ => includes_value (non_null filterValues) issueValue
      end.

(** [issue.parent_id !== null && displayFilters?.sub_issue === false] *)
Definition hiddenSubIssue (issue : TIssue)
    (displayFilters : option IIssueDisplayFilterOptions) : bool :=
  negb (match issue "parent_id" with VNull => true | _ => false end)
  && match displayFilters with
     | Some d => match sub_issue d with Some false => true | _ => false end
     | None => false
     end.

Definition getFilteredIssues (issues : list TIssue)
    (filters : option IIssueFilterOptions)
    (displayFilters : option IIssueDisplayFilterOptions) : list TIssue :=
  match filters with
  | None => issues
  | Some filters =>
      let activeFilters := filter isActiveFilter filters in
      filter (fun issue =>
                if hiddenSubIssue issue displayFilters then false
                else if (List.length activeFilters =? 0)%nat then true
                else forallb (filterCondition issue) activeFilters)
             issues
  end.

(** What a categorical filter asks of the issue's value: a string must
    be one of the allowed values, an array must contain one of them. *)
Definition value_matches (allowed : list string) (v : TValue) : Prop :=
  match v with
  | VString s => In s allowed
  | VArray l => exists x, In x allowed /\ In x l
  | _ => False
  end.

End Filtering.

(** ** The filter law in the words of the specification *)

Section FilterLaw.

Variables TDate TFilterDate TDateType : Type.
Variable newDate : TValue -> TDate.
Variable parseDateFilter : string -> TDateType * TFilterDate.
Variable checkDateCriteria : TDate -> TFilterDate -> TDateType -> bool.
Variable FILTER_TO_ISSUE_MAP : string -> option string.




End FilterLaw.

(** Values used where a statement is evaluated on concrete inputs: the
    sentinel as a sample string, and date helpers that accept every date. *)
Definition sample_ALL_ISSUES : string := "All Issues".

Definition sample_newDate (v : TValue) : unit := tt.
Definition sample_parseDateFilter (s : string) : unit * unit := (tt, tt).
Definition sample_checkDateCriteria (d r t : unit) : bool := true.

(** A table that maps the filter keys [status] and [priority] to the issue
    properties of the same name, and no other key. *)
Definition sample_FILTER_TO_ISSUE_MAP (filterKey : string) : option string :=
  if filterKey =? "status" then Some "status"
  else if filterKey =? "priority" then Some "priority"
  else None.


(** An issue with the given status, priority and parent reference, and
    no other property. *)
Definition sample_issue (status priority : string) (parent : TValue) : TIssue :=
  fun key =>
    if key =? "status" then VString status
    else if key =? "priority" then VString priority
    else if key =? "parent_id" then parent
    else VUndefined.

(* ================================================================== *)
(** * Remaining helpers of the store *)
(* ================================================================== *)

(** ** Sort order of empty values *)

Section AnyValues.

(** The payload of a number is never inspected. *)
Variable TNumber : Type.

(** A loosely typed value: [undefined], [null], a boolean, a number, a
    string, an array, or a plain object given by its own enumerable
    properties. *)
#[warnings="-register-all"]
Inductive TAny : Type :=
| AUndefined
| ANull
| ABoolean (b : bool)
| ANumber (n : TNumber)
| AString (s : string)
| AArray (l : list TAny)
| AObject (props : list (string * TAny)).

(** [typeof value !== "number"] *)
Definition notNumber (value : TAny) : bool :=
  match value with
  | ANumber _ => false
  | _ => true
  end.

(** lodash [isEmpty]: nullish values, strings and arrays of length zero,
    objects without own enumerable property, and the other primitives
    (which have none either). *)
Definition isEmpty (value : TAny) : bool :=
  match value with
  | AUndefined | ANull => true
  | AString s => (String.length s =? 0)%nat
  | AArray l => (List.length l =? 0)%nat
  | AObject props => (List.length props =? 0)%nat
  | ABoolean _ | ANumber _ => true
  end.

(** [object?.[key]] for an object given by its properties, or a nullish
    [object] ([None]). *)
Definition optionalRead (key : string) (object : option (JS.object TAny)) : TAny :=
  match object with
  | None => AUndefined
  | Some o => match JS.get key o with
              | Some v => v
              | None => AUndefined
              end
  end.

Definition getSortOrderToFilterEmptyValues (key : string)
    (object : option (JS.object TAny)) : nat :=
  let value := optionalRead key object in
  if notNumber value && isEmpty value then 1 else 0.

End AnyValues.

(** ** Active issue store *)

(** The identifiers of the router store that the helper reads. *)
Record TRouter : Type := mkRouter {
  globalViewId : option string;
  viewId : option string;
  projectId : option string;
  cycleId : option string;
  moduleId : option string;
  userId : option string;
  epicId : option string;
  teamId : option string
}.

Section ActiveStore.

(** The enumeration [EIssuesStoreType] comes from the constants package;
    its members named by the helper are taken as given, and [===] on its
    values as a boolean test. *)
Variable EIssuesStoreType : Type.
Variables GLOBAL PROFILE TEAM_VIEW TEAM PROJECT_VIEW CYCLE MODULE EPIC PROJECT
  : EIssuesStoreType.
Variable storeType_eqb : EIssuesStoreType -> EIssuesStoreType -> bool.

(** The router store is read from a global; it is an argument here.  The
    result is [None] when the function falls off its end. *)
Definition getActiveIssueStoreType (router : TRouter) : option EIssuesStoreType :=
  if JS.truthy (globalViewId router) then Some GLOBAL
  else if JS.truthy (userId router) then Some PROFILE
  else if JS.truthy (teamId router) && JS.truthy (viewId router) then Some TEAM_VIEW
  else if JS.truthy (teamId router) then Some TEAM
  else if JS.truthy (projectId router) && JS.truthy (viewId router) then Some PROJECT_VIEW
  else if JS.truthy (cycleId router) then Some CYCLE
  else if JS.truthy (moduleId router) then Some MODULE
  else if JS.truthy (epicId router) then Some EPIC
  else if JS.truthy (projectId router) then Some PROJECT
  else None.

Definition isCurrentIssueStoreActive (router : TRouter)
    (currentStoreType : EIssuesStoreType) : bool :=
  let activeStoreType := getActiveIssueStoreType router in
  match activeStoreType with
  | Some active => storeType_eqb currentStoreType active
  | None => false
  end.

End ActiveStore.

(** ** Issue ids and previous state *)

(** The property key a value is converted to when it indexes an object. *)
Definition toPropertyKey (v : TValue) : string :=
  match v with
  | VUndefined => "undefined"
  | VNull => "null"
  | VString s => s
  | VArray l => String.concat "," l
  end.

(** [issues.map((issue) => issue?.id)], an absent element being [None]. *)
Definition getIssueIds (issues : list (option TIssue)) : list TValue :=
  map (fun issue => match issue with
                    | Some issue => issue "id"
                    | None => VUndefined
                    end)
      issues.

(** lodash [cloneDeep]: values carry no identity here, a copy is the value. *)
Definition cloneDeep (issue : TIssue) : TIssue := issue.

Section PreviousState.

(** [store.issue.issues.issuesMap[issueId]]: the stored issue, or [None]
    when the lookup is falsy. *)
Variable issuesMap : string -> option TIssue.

Definition getPreviousIssuesState (issues : list TIssue) : JS.object TIssue :=
  let issueIds := map (fun issue : TIssue => issue "id") issues in
  let issuesPreviousState : JS.object TIssue := [] in
  fold_left (fun acc issueId =>
               match issuesMap (toPropertyKey issueId) with
               | Some stored => JS.set (toPropertyKey issueId) (cloneDeep stored) acc
               | None => acc
               end)
            issueIds issuesPreviousState.

End PreviousState.

(** ** Predicates used in the statements below *)

Fixpoint has_underscore (s : string) : bool :=
  match s with
  | EmptyString => false
  | String c s' => Ascii.eqb c "_"%char || has_underscore s'
  end.

(** A group value that is not empty and holds no underscore; a sub-group
    value that is not empty. *)
Definition wf_group (g : string) : bool :=
  negb (g =? EmptyString) && negb (has_underscore g).

Definition wf_sub_group (s : string) : bool :=
  negb (s =? EmptyString).

(** The entry the reconciliation of a two-dimension change calls for: an
    ADD at a pair of current values that is not a pair of previous values,
    a DELETE at a pair of previous values that is not a pair of current
    values. *)
Definition calledFor (previousGroup currentGroup previousSubGroup currentSubGroup : list string)
    (e : TIssueKeyAction) : Prop :=
  exists g s,
    path e = [g; s]
    /\ ((action e = ADD /\ In g currentGroup /\ In s currentSubGroup
         /\ ~ (In g previousGroup /\ In s previousSubGroup))
        \/ (action e = DELETE /\ In g previousGroup /\ In s previousSubGroup
            /\ ~ (In g currentGroup /\ In s currentSubGroup))).

(** A stand-in for the store enumeration, used on concrete inputs. *)
Inductive sample_StoreType : Type :=
| sGLOBAL | sPROFILE | sTEAM_VIEW | sTEAM | sPROJECT_VIEW
| sCYCLE | sMODULE | sEPIC | sPROJECT | sARCHIVED.

Definition sample_storeType_eqb (a b : sample_StoreType) : bool :=
  match a, b with
  | sGLOBAL, sGLOBAL | sPROFILE, sPROFILE | sTEAM_VIEW, sTEAM_VIEW
  | sTEAM, sTEAM | sPROJECT_VIEW, sPROJECT_VIEW | sCYCLE, sCYCLE
  | sMODULE, sMODULE | sEPIC, sEPIC | sPROJECT, sPROJECT
  | sARCHIVED, sARCHIVED => true
  | _, _ => false
  end.

(* ================================================================== *)
(** * Facts about the JavaScript primitives *)
(* ================================================================== *)

Module JSFacts.

Lemma includes_In (l : list string) (x : string) :
  JS.includes l x = true <-> In x l.
Proof.
  unfold JS.includes. rewrite existsb_exists. split.
  - intros [y [Hy Heq]]. apply String.eqb_eq in Heq. now subst.
  - intros H. exists x. split; [exact H | apply String.eqb_refl].
Qed.

Lemma includes_not_In (l : list string) (x : string) :
  JS.includes l x = false <-> ~ In x l.
Proof.
  rewrite <- includes_In. destruct (JS.includes l x); split; congruence.
Qed.

(** A loop that pushes the elements it does not skip is a filter. *)
Lemma push_loop_filter (skip : string -> bool) (l acc : list string) :
  fold_left (fun acc x => if skip x then acc else JS.push acc x) l acc
  = (acc ++ filter (fun x => negb (skip x)) l)%list.
Proof.
  revert acc. induction l as [|x l IH]; intros acc; simpl.
  - now rewrite app_nil_r.
  - rewrite IH. destruct (skip x); simpl; [reflexivity|].
    unfold JS.push. now rewrite <- app_assoc.
Qed.

Section Uniq.

Let step (result : list string) (value : string) : list string :=
  if JS.includes result value then result else JS.push result value.

Lemma uniq_loop_In (l acc : list string) (x : string) :
  In x (fold_left step l acc) <-> In x acc \/ In x l.
Proof.
  revert acc. induction l as [|y l IH]; intros acc; simpl.
  - tauto.
  - rewrite IH. unfold step, JS.push.
    destruct (JS.includes acc y) eqn:E.
    + apply includes_In in E. split; [tauto|].
      intros [H|[H|H]]; subst; auto.
    + rewrite in_app_iff. simpl. tauto.
Qed.

Lemma uniq_loop_NoDup (l acc : list string) :
  NoDup acc -> NoDup (fold_left step l acc).
Proof.
  revert acc. induction l as [|y l IH]; intros acc Hacc; simpl; [exact Hacc|].
  apply IH. unfold step, JS.push.
  destruct (JS.includes acc y) eqn:E; [exact Hacc|].
  apply includes_not_In in E.
  apply NoDup_rev in Hacc. rewrite <- (rev_involutive (acc ++ [y])).
  apply NoDup_rev. rewrite rev_app_distr. simpl.
  constructor; [now rewrite <- in_rev | exact Hacc].
Qed.

Lemma uniq_loop_NoDup_id (l acc : list string) :
  NoDup (acc ++ l) -> fold_left step l acc = (acc ++ l)%list.
Proof.
  revert acc. induction l as [|y l IH]; intros acc Hnd; simpl.
  - now rewrite app_nil_r.
  - unfold step at 2, JS.push.
    destruct (JS.includes acc y) eqn:E.
    + apply includes_In in E. exfalso.
      apply NoDup_remove_2 in Hnd. apply Hnd. apply in_or_app. now left.
    + rewrite IH; rewrite <- app_assoc; [reflexivity | exact Hnd].
Qed.

Lemma uniq_In (l : list string) (x : string) : In x (JS.uniq l) <-> In x l.
Proof. unfold JS.uniq. fold step. rewrite uniq_loop_In. simpl. tauto. Qed.

Lemma uniq_NoDup (l : list string) : NoDup (JS.uniq l).
Proof. unfold JS.uniq. fold step. apply uniq_loop_NoDup. constructor. Qed.

Lemma uniq_NoDup_id (l : list string) : NoDup l -> JS.uniq l = l.
Proof. intros H. unfold JS.uniq. fold step. now rewrite uniq_loop_NoDup_id. Qed.

End Uniq.

Section ObjectFacts.
Variable V : Type.
Implicit Types (o : JS.object V) (k : string) (v : V) (p w : string * V).

Lemma get_put_same k v o : JS.get k (JS.put k v o) = Some v.
Proof.
  induction o as [|[k' v'] o IH]; simpl.
  - now rewrite String.eqb_refl.
  - destruct (k' =? k) eqn:E; simpl; rewrite E; auto.
Qed.

Lemma get_put_other k k' v o :
  k <> k' -> JS.get k' (JS.put k v o) = JS.get k' o.
Proof.
  intros Hne. induction o as [|[k0 v0] o IH]; simpl.
  - destruct (k =? k') eqn:E; [|reflexivity].
    apply String.eqb_eq in E. contradiction.
  - destruct (k0 =? k) eqn:E; simpl.
    + apply String.eqb_eq in E. subst k0.
      destruct (k =? k') eqn:E'; [|reflexivity].
      apply String.eqb_eq in E'. contradiction.
    + now rewrite IH.
Qed.

Lemma put_keys k v o k' :
  In k' (map fst (JS.put k v o)) -> k' = k \/ In k' (map fst o).
Proof.
  induction o as [|[k0 v0] o IH]; simpl.
  - intros [H|[]]. now left.
  - destruct (k0 =? k) eqn:E; simpl; [tauto|].
    intros [H|H]; [tauto|]. destruct (IH H); tauto.
Qed.

Lemma put_NoDup k v o :
  NoDup (map fst o) -> NoDup (map fst (JS.put k v o)).
Proof.
  induction o as [|[k0 v0] o IH]; simpl; intros Hnd.
  - constructor; [intros [] | constructor].
  - inversion Hnd as [|? ? Hnot Hrest]; subst.
    destruct (k0 =? k) eqn:E; simpl.
    + constructor; assumption.
    + constructor; [|auto].
      intros Hin. apply put_keys in Hin. destruct Hin as [->|Hin]; [|contradiction].
      rewrite String.eqb_refl in E. discriminate.
Qed.

Lemma put_In p k v o : In p (JS.put k v o) -> p = (k, v) \/ In p o.
Proof.
  induction o as [|[k0 v0] o IH]; simpl.
  - intros [H|[]]. now left.
  - destruct (k0 =? k) eqn:E; simpl.
    + apply String.eqb_eq in E. subst k0. intros [H|H]; auto.
    + intros [H|H]; auto. destruct (IH H); auto.
Qed.

Lemma get_In k v o : JS.get k o = Some v -> In (k, v) o.
Proof.
  induction o as [|[k0 v0] o IH]; simpl; [discriminate|].
  destruct (k0 =? k) eqn:E.
  - apply String.eqb_eq in E. intros [= ->]. subst. now left.
  - auto.
Qed.

Lemma In_get k v o : NoDup (map fst o) -> In (k, v) o -> JS.get k o = Some v.
Proof.
  induction o as [|[k0 v0] o IH]; simpl; intros Hnd; [tauto|].
  inversion Hnd as [|? ? Hnot Hrest]; subst.
  intros [[= -> ->]|Hin].
  - now rewrite String.eqb_refl.
  - destruct (k0 =? k) eqn:E; [|auto].
    apply String.eqb_eq in E. subst k0.
    exfalso. apply Hnot. change k with (fst (k, v)). now apply in_map.
Qed.

(** The enumeration order is a rearrangement of the creation order. *)
Lemma insert_by_index_perm p (l : JS.object V) :
  Permutation (JS.insert_by_index p l) (p :: l).
Proof.
  induction l as [|q l IH]; simpl; [reflexivity|].
  destruct (JS.index_of p <=? JS.index_of q)%N; [reflexivity|].
  rewrite IH. apply perm_swap.
Qed.

Lemma sort_by_index_perm (l : JS.object V) : Permutation (JS.sort_by_index l) l.
Proof.
  induction l as [|q l IH]; simpl; [reflexivity|].
  rewrite insert_by_index_perm. now constructor.
Qed.

Lemma filter_split_perm (A : Type) (f : A -> bool) (l : list A) :
  Permutation (filter f l ++ filter (fun x => negb (f x)) l) l.
Proof.
  induction l as [|x l IH]; simpl; [reflexivity|].
  destruct (f x); simpl.
  - now constructor.
  - rewrite <- Permutation_middle. now constructor.
Qed.

Lemma ownProperties_perm o : Permutation (JS.ownProperties o) o.
Proof.
  unfold JS.ownProperties. rewrite sort_by_index_perm. apply filter_split_perm.
Qed.

Lemma values_In v o : In v (JS.values o) <-> exists k, In (k, v) o.
Proof.
  unfold JS.values. rewrite in_map_iff. split.
  - intros [[k v'] [Hv Hin]]. simpl in Hv. subst v'. exists k.
    eapply Permutation_in; [apply ownProperties_perm | exact Hin].
  - intros [k Hin]. exists (k, v). split; [reflexivity|].
    eapply Permutation_in; [symmetry; apply ownProperties_perm | exact Hin].
Qed.

(** ** Sequences of writes *)

Lemma set_NoDup k v o : NoDup (map fst o) -> NoDup (map fst (JS.set k v o)).
Proof. unfold JS.set. destruct (k =? "__proto__"); [auto | apply put_NoDup]. Qed.

Lemma set_In p k v o : In p (JS.set k v o) -> p = (k, v) \/ In p o.
Proof. unfold JS.set. destruct (k =? "__proto__"); [auto | apply put_In]. Qed.

Lemma writes_NoDup ws o :
  NoDup (map fst o) -> NoDup (map fst (fold_left (@JS.write V) ws o)).
Proof.
  revert o. induction ws as [|w ws IH]; intros o Hnd; simpl; [exact Hnd|].
  apply IH. now apply set_NoDup.
Qed.

Lemma writes_In p ws o :
  In p (fold_left (@JS.write V) ws o) -> In p ws \/ In p o.
Proof.
  revert o. induction ws as [|w ws IH]; intros o; simpl; [auto|].
  intros H. apply IH in H. destruct H as [H|H]; [auto|].
  apply set_In in H. destruct H as [->|H]; [|auto].
  left. left. now destruct w.
Qed.

Lemma lastWrite_snoc k ws w :
  JS.lastWrite k (ws ++ [w])
  = if fst w =? k then Some (snd w) else JS.lastWrite k ws.
Proof.
  unfold JS.lastWrite. rewrite rev_app_distr. simpl.
  now destruct (fst w =? k).
Qed.

Lemma lastWrite_In k v ws : JS.lastWrite k ws = Some v -> In (k, v) ws.
Proof.
  unfold JS.lastWrite.
  destruct (find (fun w => fst w =? k) (rev ws)) as [[k' v']|] eqn:E; [|discriminate].
  simpl. intros [= ->]. apply find_some in E. destruct E as [Hin Hk].
  simpl in Hk. apply String.eqb_eq in Hk. subst k'. now apply in_rev.
Qed.

Lemma lastWrite_written k v ws :
  In (k, v) ws -> exists v', JS.lastWrite k ws = Some v'.
Proof.
  intros Hin. unfold JS.lastWrite.
  destruct (find (fun w => fst w =? k) (rev ws)) as [w|] eqn:E.
  - now exists (snd w).
  - exfalso. apply in_rev in Hin.
    pose proof (find_none _ _ E _ Hin) as Hk. simpl in Hk.
    rewrite String.eqb_refl in Hk. discriminate.
Qed.

(** After a sequence of writes, a key other than ["__proto__"] holds the
    value of the last write to it, or what it held before. *)
Lemma get_writes k ws o :
  k <> "__proto__" ->
  JS.get k (fold_left (@JS.write V) ws o)
  = match JS.lastWrite k ws with
    | Some v => Some v
    | None => JS.get k o
    end.
Proof.
  intros Hk. induction ws as [|w ws IH] using rev_ind.
  - reflexivity.
  - rewrite fold_left_app, lastWrite_snoc. simpl.
    unfold JS.write at 1, JS.set.
    destruct (fst w =? k) eqn:E.
    + apply String.eqb_eq in E.
      destruct (fst w =? "__proto__") eqn:E'.
      * apply String.eqb_eq in E'. congruence.
      * rewrite E. apply get_put_same.
    + assert (fst w <> k) as Hne
        by (intros Heq; rewrite Heq, String.eqb_refl in E; discriminate).
      destruct (fst w =? "__proto__"); [exact IH|].
      rewrite get_put_other by exact Hne. exact IH.
Qed.

Lemma writes_no_proto ws o :
  ~ In "__proto__" (map fst o) ->
  ~ In "__proto__" (map fst (fold_left (@JS.write V) ws o)).
Proof.
  revert o. induction ws as [|w ws IH]; intros o Ho; simpl; [exact Ho|].
  apply IH. unfold JS.write, JS.set.
  destruct (fst w =? "__proto__") eqn:E; [exact Ho|].
  intros Hin. apply put_keys in Hin. destruct Hin as [Hin|Hin]; [|auto].
  rewrite <- Hin, String.eqb_refl in E. discriminate.
Qed.

(** A nested loop of writes is the sequence of its writes. *)
Lemma nested_loop_writes (A B : Type) (f : A -> B -> string * V)
    (outer : list A) (inner : list B) o :
  fold_left (fun acc a =>
               fold_left (fun acc b => JS.set (fst (f a b)) (snd (f a b)) acc)
                         inner acc)
            outer o
  = fold_left (@JS.write V) (flat_map (fun a => map (f a) inner) outer) o.
Proof.
  revert o. induction outer as [|a outer IH]; intros o; simpl; [reflexivity|].
  rewrite fold_left_app, IH. f_equal.
  clear IH. revert o. induction inner as [|b inner IHi]; intros o; simpl; [reflexivity|].
  apply IHi.
Qed.

End ObjectFacts.

End JSFacts.

(* ================================================================== *)
(** * The two-dimension planner as a sequence of writes *)
(* ================================================================== *)

Section PlannerFacts.

Variable ALL_ISSUES : string.

Variables groupActionsArray subGroupActionsArray : TGroupedActions.
Variables previousIssueGroupProperties currentIssueGroupProperties
          previousIssueSubGroupProperties currentIssueSubGroupProperties : list string.

Let accumulator : JS.object TIssueKeyAction :=
  subGroupIssueKeyActionsObject ALL_ISSUES groupActionsArray subGroupActionsArray
    previousIssueGroupProperties currentIssueGroupProperties
    previousIssueSubGroupProperties currentIssueSubGroupProperties.

Let writes : list (string * TIssueKeyAction) :=
  plannedWrites ALL_ISSUES groupActionsArray subGroupActionsArray
    previousIssueGroupProperties currentIssueGroupProperties
    previousIssueSubGroupProperties currentIssueSubGroupProperties.

Let result : list TIssueKeyAction :=
  getSubGroupIssueKeyActions ALL_ISSUES groupActionsArray subGroupActionsArray
    previousIssueGroupProperties currentIssueGroupProperties
    previousIssueSubGroupProperties currentIssueSubGroupProperties.

Lemma accumulator_writes : accumulator = fold_left (@JS.write _) writes [].
Proof.
  unfold writes, plannedWrites.
  rewrite !fold_left_app.
  rewrite <- !JSFacts.nested_loop_writes.
  reflexivity.
Qed.

(** Every write stores an entry under the key composed from its path. *)
Lemma writes_keyed w : In w writes -> fst w = keyOfAction ALL_ISSUES (snd w).
Proof.
  unfold writes, plannedWrites. rewrite !in_app_iff, !in_flat_map.
  intros [H|[H|[H|H]]]; destruct H as [a [_ H]];
    apply in_map_iff in H; destruct H as [b [<- _]]; reflexivity.
Qed.

Lemma accumulator_keyed p :
  In p accumulator -> fst p = keyOfAction ALL_ISSUES (snd p).
Proof.
  rewrite accumulator_writes. intros H.
  apply JSFacts.writes_In in H. destruct H as [H|[]]. now apply writes_keyed.
Qed.

Lemma accumulator_NoDup : NoDup (map fst accumulator).
Proof. rewrite accumulator_writes. apply JSFacts.writes_NoDup. constructor. Qed.

Lemma accumulator_no_proto e : ~ In ("__proto__", e) accumulator.
Proof.
  rewrite accumulator_writes. intros H.
  apply (@JSFacts.writes_no_proto _ writes []); [intros [] |].
  change "__proto__" with (fst ("__proto__", e)). now apply in_map.
Qed.

(** The entries of the result are the properties of the accumulator. *)
Lemma result_In e : In e result <-> exists k, In (k, e) accumulator.
Proof. apply JSFacts.values_In. Qed.

(** The result holds, for every key written, the entry written last. *)
Lemma result_last_write e :
  In e result <->
  exists k, k <> "__proto__" /\ JS.lastWrite k writes = Some e.
Proof.
  rewrite result_In. split.
  - intros [k Hin]. exists k.
    assert (k <> "__proto__") as Hk
      by (intros ->; exact (@accumulator_no_proto e Hin)).
    split; [exact Hk|].
    apply (JSFacts.In_get _ _ _ accumulator_NoDup) in Hin.
    rewrite accumulator_writes, JSFacts.get_writes in Hin by exact Hk.
    destruct (JS.lastWrite k writes); [exact Hin | discriminate].
  - intros [k [Hk Hlast]]. exists k. apply JSFacts.get_In.
    rewrite accumulator_writes, JSFacts.get_writes by exact Hk.
    now rewrite Hlast.
Qed.

Lemma result_keys :
  map (keyOfAction ALL_ISSUES) result = JS.keys accumulator.
Proof.
  unfold result, getSubGroupIssueKeyActions, JS.values, JS.keys.
  fold accumulator. rewrite map_map. apply map_ext_in.
  intros p Hp. symmetry. apply accumulator_keyed.
  eapply Permutation_in; [apply JSFacts.ownProperties_perm | exact Hp].
Qed.

Lemma result_keys_NoDup : NoDup (map (keyOfAction ALL_ISSUES) result).
Proof.
  rewrite result_keys. unfold JS.keys.
  eapply Permutation_NoDup; [|exact accumulator_NoDup].
  apply Permutation_map. symmetry. apply JSFacts.ownProperties_perm.
Qed.

End PlannerFacts.

(* ================================================================== *)
(** * Key composer and two-dimension planner: the stated properties *)
(* ================================================================== *)

Section GroupingClaims.

Variable ALL_ISSUES : string.

(** The composer reads an empty string as an absent argument. *)
Lemma getGroupKey_dropEmpty (groupValue subGroupValue : option string) :
  getGroupKey ALL_ISSUES groupValue subGroupValue
  = composeKey_spec ALL_ISSUES (JS.dropEmpty groupValue) (JS.dropEmpty subGroupValue).
Proof.
  unfold getGroupKey, composeKey_spec, JS.dropEmpty, JS.truthy, JS.strict_neq, JS.toString.
  destruct groupValue as [g|]; [|reflexivity].
  destruct (g =? EmptyString); simpl; [reflexivity|].
  destruct subGroupValue as [s|]; [|reflexivity].
  destruct (s =? EmptyString); simpl; [reflexivity|].
  destruct (s =? "null"); reflexivity.
Qed.

Lemma dropEmpty_nonempty (v : option string) :
  v <> Some EmptyString -> JS.dropEmpty v = v.
Proof.
  intros Hv. destruct v as [x|]; [simpl|reflexivity].
  destruct (x =? EmptyString) eqn:E; [|reflexivity].
  apply String.eqb_eq in E. congruence.
Qed.

(** C9 (amended).  The key composer is a total function of its two
    arguments that follows the three-case contract once an empty string is
    counted as not supplied: it returns [groupValue ++ "_" ++ subGroupValue]
    when both are supplied, non-empty, and the sub-group value is not the
    literal ["null"]; else [groupValue] when that is supplied and
    non-empty; else the [ALL_ISSUES] sentinel.  On arguments that are not
    the empty string it is the contract as worded. *)
Theorem getGroupKey_contract (groupValue subGroupValue : option string) :
  getGroupKey ALL_ISSUES groupValue subGroupValue
  = composeKey_spec ALL_ISSUES (JS.dropEmpty groupValue) (JS.dropEmpty subGroupValue)
  /\ (groupValue <> Some EmptyString ->
      subGroupValue <> Some EmptyString ->
      getGroupKey ALL_ISSUES groupValue subGroupValue
      = composeKey_spec ALL_ISSUES groupValue subGroupValue).
Proof.
  split; [apply getGroupKey_dropEmpty|].
  intros Hg Hs. rewrite getGroupKey_dropEmpty.
  now rewrite !dropEmpty_nonempty.
Qed.

(** C2.  The action list returned by the two-dimension planner has at most
    one entry per bucket: the keys composed from the paths of its entries
    are pairwise distinct (so are the paths), any two entries at different
    positions have different composed keys, and every entry is the one
    written last under its key. *)
Theorem getSubGroupIssueKeyActions_one_entry_per_key
    (groupActionsArray subGroupActionsArray : TGroupedActions)
    (previousIssueGroupProperties currentIssueGroupProperties
     previousIssueSubGroupProperties currentIssueSubGroupProperties : list string) :
  NoDup (map (keyOfAction ALL_ISSUES)
           (getSubGroupIssueKeyActions ALL_ISSUES groupActionsArray subGroupActionsArray
              previousIssueGroupProperties currentIssueGroupProperties
              previousIssueSubGroupProperties currentIssueSubGroupProperties))
  /\ NoDup (map path
           (getSubGroupIssueKeyActions ALL_ISSUES groupActionsArray subGroupActionsArray
              previousIssueGroupProperties currentIssueGroupProperties
              previousIssueSubGroupProperties currentIssueSubGroupProperties))
  /\ (forall i j e1 e2,
        nth_error (getSubGroupIssueKeyActions ALL_ISSUES groupActionsArray subGroupActionsArray
              previousIssueGroupProperties currentIssueGroupProperties
              previousIssueSubGroupProperties currentIssueSubGroupProperties) i = Some e1 ->
        nth_error (getSubGroupIssueKeyActions ALL_ISSUES groupActionsArray subGroupActionsArray
              previousIssueGroupProperties currentIssueGroupProperties
              previousIssueSubGroupProperties currentIssueSubGroupProperties) j = Some e2 ->
        i <> j ->
        keyOfAction ALL_ISSUES e1 <> keyOfAction ALL_ISSUES e2)
  /\ (forall e,
        In e (getSubGroupIssueKeyActions ALL_ISSUES groupActionsArray subGroupActionsArray
              previousIssueGroupProperties currentIssueGroupProperties
              previousIssueSubGroupProperties currentIssueSubGroupProperties) ->
        JS.lastWrite (keyOfAction ALL_ISSUES e)
          (plannedWrites ALL_ISSUES groupActionsArray subGroupActionsArray
              previousIssueGroupProperties currentIssueGroupProperties
              previousIssueSubGroupProperties currentIssueSubGroupProperties) = Some e).
Proof.
  pose proof (result_keys_NoDup ALL_ISSUES groupActionsArray subGroupActionsArray
                previousIssueGroupProperties currentIssueGroupProperties
                previousIssueSubGroupProperties currentIssueSubGroupProperties) as Hkeys.
  split; [exact Hkeys|]. split; [|split].
  - apply (NoDup_map_inv (fun p => getGroupKey ALL_ISSUES (nth_error p 0) (nth_error p 1))).
    rewrite map_map. exact Hkeys.
  - intros i j e1 e2 H1 H2 Hij Heq. apply Hij.
    assert (i < List.length (map (keyOfAction ALL_ISSUES)
              (getSubGroupIssueKeyActions ALL_ISSUES groupActionsArray subGroupActionsArray
              previousIssueGroupProperties currentIssueGroupProperties
              previousIssueSubGroupProperties currentIssueSubGroupProperties)))%nat as Hi.
    { rewrite length_map. apply nth_error_Some. congruence. }
    apply (proj1 (NoDup_nth_error _) Hkeys i j Hi).
    rewrite !nth_error_map, H1, H2. simpl. now rewrite Heq.
  - intros e He. apply result_last_write in He. destruct He as [k [_ Hlast]].
    pose proof (JSFacts.lastWrite_In _ _ Hlast) as Hin.
    apply writes_keyed in Hin. simpl in Hin. now rewrite <- Hin.
Qed.

(** The ADD written by the first loop for a pair of an added group value
    and a current sub-group value: its key is present in the result, and
    the entry itself is in the result when no write replaces it. *)
Lemma group_add_entry
    (groupActionsArray subGroupActionsArray : TGroupedActions)
    (previousIssueGroupProperties currentIssueGroupProperties
     previousIssueSubGroupProperties currentIssueSubGroupProperties : list string)
    (groupValue subGroupValue : string) :
  In groupValue (at_action groupActionsArray ADD) ->
  In subGroupValue currentIssueSubGroupProperties ->
  In (getGroupKey ALL_ISSUES (Some groupValue) (Some subGroupValue),
      mkKeyAction [groupValue; subGroupValue] ADD)
     (plannedWrites ALL_ISSUES groupActionsArray subGroupActionsArray
        previousIssueGroupProperties currentIssueGroupProperties
        previousIssueSubGroupProperties currentIssueSubGroupProperties).
Proof.
  intros Hg Hs. unfold plannedWrites. apply in_or_app. left.
  apply in_flat_map. exists groupValue. split; [exact Hg|].
  apply in_map_iff. exists subGroupValue. split; [reflexivity | exact Hs].
Qed.

(** C1 (amended).  For every call of the two-dimension planner and every
    pair of a group value [g] in the group diff's ADD list and a value [s]
    of [currentIssueSubGroupProperties], the first loop writes an ADD at
    path [[g; s]] under the composed key; unless that key is
    ["__proto__"], the returned list contains exactly the last entry
    written under that key, and it is this ADD whenever every write of the
    four loops under that key is this ADD.  For group values going
    [["A"]] to [["A"; "B"]] with sub-group values fixed at [["x"; "y"]],
    the result is the ADD at (B,x) and the ADD at (B,y), nothing else. *)
Theorem getSubGroupIssueKeyActions_group_add_coverage :
  (forall (groupActionsArray subGroupActionsArray : TGroupedActions)
          (previousIssueGroupProperties currentIssueGroupProperties
           previousIssueSubGroupProperties currentIssueSubGroupProperties : list string)
          (g s : string),
      In g (at_action groupActionsArray ADD) ->
      In s currentIssueSubGroupProperties ->
      getGroupKey ALL_ISSUES (Some g) (Some s) <> "__proto__" ->
      (exists e,
          In e (getSubGroupIssueKeyActions ALL_ISSUES groupActionsArray subGroupActionsArray
                  previousIssueGroupProperties currentIssueGroupProperties
                  previousIssueSubGroupProperties currentIssueSubGroupProperties)
          /\ keyOfAction ALL_ISSUES e = getGroupKey ALL_ISSUES (Some g) (Some s)
          /\ JS.lastWrite (getGroupKey ALL_ISSUES (Some g) (Some s))
               (plannedWrites ALL_ISSUES groupActionsArray subGroupActionsArray
                  previousIssueGroupProperties currentIssueGroupProperties
                  previousIssueSubGroupProperties currentIssueSubGroupProperties) = Some e)
      /\ ((forall e,
              In (getGroupKey ALL_ISSUES (Some g) (Some s), e)
                 (plannedWrites ALL_ISSUES groupActionsArray subGroupActionsArray
                    previousIssueGroupProperties currentIssueGroupProperties
                    previousIssueSubGroupProperties currentIssueSubGroupProperties) ->
              e = mkKeyAction [g; s] ADD) ->
          In (mkKeyAction [g; s] ADD)
             (getSubGroupIssueKeyActions ALL_ISSUES groupActionsArray subGroupActionsArray
                previousIssueGroupProperties currentIssueGroupProperties
                previousIssueSubGroupProperties currentIssueSubGroupProperties)))
  /\ getSubGroupIssueKeyActions ALL_ISSUES
       (getDifference ["A"; "B"] ["A"] None) (getDifference ["x"; "y"] ["x"; "y"] None)
       ["A"] ["A"; "B"] ["x"; "y"] ["x"; "y"]
     = [mkKeyAction ["B"; "x"] ADD; mkKeyAction ["B"; "y"] ADD].
Proof.
  split; [|reflexivity].
  intros G S pG cG pS cS g s Hg Hs Hproto.
  pose proof (group_add_entry G S pG cG pS cS g s Hg Hs) as Hw.
  destruct (JSFacts.lastWrite_written _ _ _ Hw) as [e' He'].
  assert (In e' (getSubGroupIssueKeyActions ALL_ISSUES G S pG cG pS cS)) as Hin.
  { apply result_last_write. eauto. }
  split.
  - exists e'. split; [exact Hin|]. split; [|exact He'].
    apply JSFacts.lastWrite_In, writes_keyed in He'. simpl in He'. now symmetry.
  - intros Hsame. rewrite <- (Hsame e'); [exact Hin|].
    now apply JSFacts.lastWrite_In.
Qed.

(** C3 (amended).  When the previous and the current sub-group value lists
    are both empty, so that the sub-group diff is empty as well, the
    planner returns the empty list whatever the group diff is: a removed
    group value yields no DELETE.  The key composer does send a pair with
    an absent or empty sub-group component to the group-only key. *)
Theorem getSubGroupIssueKeyActions_empty_sub_group
    (groupActionsArray : TGroupedActions)
    (previousIssueGroupProperties currentIssueGroupProperties : list string) :
  getSubGroupIssueKeyActions ALL_ISSUES groupActionsArray (getDifference [] [] None)
    previousIssueGroupProperties currentIssueGroupProperties [] [] = []
  /\ (forall g, g <> EmptyString ->
        getGroupKey ALL_ISSUES (Some g) None = g
        /\ getGroupKey ALL_ISSUES (Some g) (Some EmptyString) = g).
Proof.
  split.
  - unfold getSubGroupIssueKeyActions, subGroupIssueKeyActionsObject. simpl.
    assert (forall (l : list string) (o : JS.object TIssueKeyAction),
               fold_left (fun acc _ => acc) l o = o) as Hskip
      by (induction l as [|x l IH]; intros o; simpl; auto).
    now rewrite !Hskip.
  - intros g Hg. rewrite !getGroupKey_dropEmpty. simpl.
    destruct (g =? EmptyString) eqn:E; [|auto].
    apply String.eqb_eq in E. contradiction.
Qed.

End GroupingClaims.

(** The single-dimension scenario: an assignee is added to an issue. *)
Example getGroupIssueKeyActions_assignee_added :
  getDifference ["u1"; "u2"] ["u1"] None = mkActions ["u2"] []
  /\ getGroupIssueKeyActions ["u2"] [] = [mkKeyAction ["u2"] ADD].
Proof. split; reflexivity. Qed.

(** C1, at the inputs of the stated example. *)
Lemma getSubGroupIssueKeyActions_group_add_coverage_witness :
  In (mkKeyAction ["B"; "x"] ADD)
     (getSubGroupIssueKeyActions sample_ALL_ISSUES
        (getDifference ["A"; "B"] ["A"] None) (getDifference ["x"; "y"] ["x"; "y"] None)
        ["A"] ["A"; "B"] ["x"; "y"] ["x"; "y"]).
Proof.
  apply (proj1 (getSubGroupIssueKeyActions_group_add_coverage sample_ALL_ISSUES)).
  - simpl. auto.
  - simpl. auto.
  - discriminate.
  - simpl. intros e [H|[H|[]]]; inversion H; reflexivity.
Defined.

(** C1 as stated fails: an issue moves from group [a] to group [a_b] and
    from sub-group [b_c] to sub-group [c].  The ADD for the pair of the
    added group [a_b] and the current sub-group [c] is composed to the key
    [a_b_c], which the DELETE for ([a], [b_c]) overwrites. *)
Lemma getSubGroupIssueKeyActions_group_add_coverage_counterexample :
  In "a_b" (at_action (getDifference ["a_b"] ["a"] None) ADD)
  /\ In "c" ["c"]
  /\ getSubGroupIssueKeyActions sample_ALL_ISSUES
       (getDifference ["a_b"] ["a"] None) (getDifference ["c"] ["b_c"] None)
       ["a"] ["a_b"] ["b_c"] ["c"]
     = [mkKeyAction ["a"; "b_c"] DELETE]
  /\ ~ In (mkKeyAction ["a_b"; "c"] ADD)
          (getSubGroupIssueKeyActions sample_ALL_ISSUES
             (getDifference ["a_b"] ["a"] None) (getDifference ["c"] ["b_c"] None)
             ["a"] ["a_b"] ["b_c"] ["c"]).
Proof.
  repeat split; try (simpl; auto; fail).
  simpl. intros [H|[]]. discriminate.
Qed.

(** C3 as stated fails: a removed group value with empty sub-group lists
    yields no action at all. *)
Lemma getSubGroupIssueKeyActions_empty_sub_group_counterexample :
  In "A" (at_action (getDifference [] ["A"] None) DELETE)
  /\ getSubGroupIssueKeyActions sample_ALL_ISSUES
       (getDifference [] ["A"] None) (getDifference [] [] None)
       ["A"] [] [] [] = []
  /\ ~ (exists e,
          In e (getSubGroupIssueKeyActions sample_ALL_ISSUES
                  (getDifference [] ["A"] None) (getDifference [] [] None)
                  ["A"] [] [] [])
          /\ action e = DELETE).
Proof.
  repeat split; try (simpl; auto; fail).
  intros [e [[] _]].
Qed.

(** C9 as stated fails on the empty string: a supplied, empty sub-group
    value gives the group value alone, and a supplied, empty group value
    gives the sentinel. *)
Lemma getGroupKey_contract_counterexample :
  getGroupKey sample_ALL_ISSUES (Some "a") (Some EmptyString) = "a"
  /\ composeKey_spec sample_ALL_ISSUES (Some "a") (Some EmptyString) = "a_"
  /\ getGroupKey sample_ALL_ISSUES (Some EmptyString) (Some "x") = sample_ALL_ISSUES
  /\ composeKey_spec sample_ALL_ISSUES (Some EmptyString) (Some "x") = "_x".
Proof. repeat split. Qed.

(** C9, on a pair of non-empty values. *)
Lemma getGroupKey_contract_witness :
  getGroupKey sample_ALL_ISSUES (Some "a") (Some "b") = "a_b".
Proof.
  change "a_b" with (composeKey_spec sample_ALL_ISSUES (Some "a") (Some "b")).
  apply (proj2 (getGroupKey_contract sample_ALL_ISSUES (Some "a") (Some "b")));
    discriminate.
Defined.

(* ================================================================== *)
(** * Set differ *)
(* ================================================================== *)

Section DifferFacts.

Variables current previous : list string.

Lemma getDifference_ADD_filter :
  onADD (getDifference current previous None)
  = filter (fun x => negb (JS.includes previous x)) current.
Proof. unfold getDifference. simpl. now rewrite JSFacts.push_loop_filter. Qed.

Lemma getDifference_DELETE_filter :
  onDELETE (getDifference current previous None)
  = filter (fun x => negb (JS.includes current x)) previous.
Proof. unfold getDifference. simpl. now rewrite JSFacts.push_loop_filter. Qed.

Lemma getDifference_ADD_In x :
  In x (onADD (getDifference current previous None))
  <-> In x current /\ ~ In x previous.
Proof.
  rewrite getDifference_ADD_filter, filter_In, negb_true_iff.
  now rewrite JSFacts.includes_not_In.
Qed.

Lemma getDifference_DELETE_In x :
  In x (onDELETE (getDifference current previous None))
  <-> In x previous /\ ~ In x current.
Proof.
  rewrite getDifference_DELETE_filter, filter_In, negb_true_iff.
  now rewrite JSFacts.includes_not_In.
Qed.

Lemma getDifference_ADD_only :
  getDifference current previous (Some ADD)
  = mkActions (JS.uniq (onADD (getDifference current previous None))) [].
Proof. reflexivity. Qed.

Lemma getDifference_DELETE_only :
  getDifference current previous (Some DELETE)
  = mkActions [] (JS.uniq (onDELETE (getDifference current previous None))).
Proof. reflexivity. Qed.

End DifferFacts.

Lemma In_dec_includes (l : list string) (x : string) : In x l \/ ~ In x l.
Proof.
  destruct (JS.includes l x) eqn:E.
  - left. now apply JSFacts.includes_In.
  - right. now apply JSFacts.includes_not_In.
Qed.

Lemma union_difference (l1 l2 : list string) :
  set_equal (filter (fun x => negb (JS.includes l2 x)) l1 ++ l2) (l1 ++ l2).
Proof.
  intros x. rewrite !in_app_iff, filter_In, negb_true_iff, JSFacts.includes_not_In.
  destruct (In_dec_includes l2 x); tauto.
Qed.

Lemma union_difference_absorb (l1 l2 : list string) :
  set_equal (filter (fun x => negb (JS.includes l2 x)) l1 ++ l2)
            (l1 ++ intersect l2 l1)
  <-> incl l2 l1.
Proof.
  unfold set_equal, intersect, incl. split.
  - intros H x Hx. specialize (H x).
    rewrite !in_app_iff, !filter_In, JSFacts.includes_In in H.
    tauto.
  - intros H x. specialize (H x).
    rewrite !in_app_iff, !filter_In, negb_true_iff, JSFacts.includes_not_In,
      JSFacts.includes_In.
    destruct (In_dec_includes l2 x); tauto.
Qed.

(** C4 (amended).  For all lists [current] and [previous], the union of
    the ADD list with [previous] is set-equal to the union of [current]
    with [previous], and symmetrically the union of the DELETE list with
    [current] is set-equal to the union of [previous] with [current]; the
    identity with [current] united with the intersection holds exactly
    when [previous] is included in [current] (and symmetrically).  Every
    element of exactly one of the two lists is in exactly one of ADD and
    DELETE, and no element is in both. *)
Theorem getDifference_completeness (current previous : list string) :
  set_equal (onADD (getDifference current previous None) ++ previous)
            (current ++ previous)
  /\ set_equal (onDELETE (getDifference current previous None) ++ current)
               (previous ++ current)
  /\ (set_equal (onADD (getDifference current previous None) ++ previous)
                (current ++ intersect previous current)
      <-> incl previous current)
  /\ (set_equal (onDELETE (getDifference current previous None) ++ current)
                (previous ++ intersect current previous)
      <-> incl current previous)
  /\ (forall x, In x current -> ~ In x previous ->
        In x (onADD (getDifference current previous None))
        /\ ~ In x (onDELETE (getDifference current previous None)))
  /\ (forall x, In x previous -> ~ In x current ->
        In x (onDELETE (getDifference current previous None))
        /\ ~ In x (onADD (getDifference current previous None)))
  /\ (forall x, ~ (In x (onADD (getDifference current previous None))
                   /\ In x (onDELETE (getDifference current previous None)))).
Proof.
  rewrite getDifference_ADD_filter, getDifference_DELETE_filter.
  split; [apply union_difference|].
  split; [apply union_difference|].
  split; [apply union_difference_absorb|].
  split; [apply union_difference_absorb|].
  rewrite <- getDifference_ADD_filter, <- getDifference_DELETE_filter.
  split; [|split]; intros x;
    rewrite getDifference_ADD_In, getDifference_DELETE_In; tauto.
Qed.

(** C4 as stated fails when a value was removed: with [current] empty and
    [previous = ["a"]], the value [a] is in the union of ADD with
    [previous] and not in the union of [current] with the intersection. *)
Lemma getDifference_completeness_counterexample :
  In "a" (onADD (getDifference [] ["a"] None) ++ ["a"])
  /\ ~ In "a" ([] ++ intersect ["a"] [])
  /\ ~ set_equal (onADD (getDifference [] ["a"] None) ++ ["a"])
                 ([] ++ intersect ["a"] []).
Proof.
  split; [simpl; auto|]. split; [simpl; auto|].
  intros H. apply (proj1 (H "a")). simpl. auto.
Qed.

(** C5 (amended).  With the action [ADD], the returned ADD list holds the
    elements of [current] that are absent from [previous], each exactly
    once.  With no action, the ADD list is [current] without the elements
    of [previous], in order and with the repetitions of [current]: it has
    the same members, and is duplicate-free when [current] is (the two
    forms then return the same ADD list).  With the action [DELETE], the
    ADD list is empty. *)
Theorem getDifference_ADD_dedup (current previous : list string) :
  (NoDup (onADD (getDifference current previous (Some ADD)))
   /\ forall x, In x (onADD (getDifference current previous (Some ADD)))
                <-> In x current /\ ~ In x previous)
  /\ (onADD (getDifference current previous None)
      = filter (fun x => negb (JS.includes previous x)) current
      /\ forall x, In x (onADD (getDifference current previous None))
                   <-> In x current /\ ~ In x previous)
  /\ (NoDup current ->
      NoDup (onADD (getDifference current previous None))
      /\ onADD (getDifference current previous (Some ADD))
         = onADD (getDifference current previous None))
  /\ onADD (getDifference current previous (Some DELETE)) = [].
Proof.
  split; [|split; [|split]].
  - rewrite getDifference_ADD_only. simpl. split; [apply JSFacts.uniq_NoDup|].
    intros x. rewrite JSFacts.uniq_In. apply getDifference_ADD_In.
  - split; [apply getDifference_ADD_filter | apply getDifference_ADD_In].
  - intros Hnd.
    assert (NoDup (onADD (getDifference current previous None))) as H
      by (rewrite getDifference_ADD_filter; now apply NoDup_filter).
    split; [exact H|].
    rewrite getDifference_ADD_only. simpl. now apply JSFacts.uniq_NoDup_id.
  - reflexivity.
Qed.

(** C5 as stated fails for the call without an action: a value repeated
    in [current] is repeated in the ADD list. *)
Lemma getDifference_ADD_dedup_counterexample :
  onADD (getDifference ["a"; "a"] [] None) = ["a"; "a"]
  /\ ~ NoDup (onADD (getDifference ["a"; "a"] [] None)).
Proof.
  split; [reflexivity|].
  simpl. intros H. inversion H as [|? ? Hnot _]. apply Hnot. now left.
Qed.

(** C5, on a list without repetition. *)
Lemma getDifference_ADD_dedup_witness :
  NoDup (onADD (getDifference ["u1"; "u2"] ["u1"] None))
  /\ onADD (getDifference ["u1"; "u2"] ["u1"] (Some ADD))
     = onADD (getDifference ["u1"; "u2"] ["u1"] None).
Proof.
  apply (proj1 (proj2 (proj2 (getDifference_ADD_dedup ["u1"; "u2"] ["u1"])))).
  repeat constructor; simpl; intuition discriminate.
Defined.

(* ================================================================== *)
(** * Filter evaluator *)
(* ================================================================== *)

Section FilterFacts.

Variables TDate TFilterDate TDateType : Type.
Variable newDate : TValue -> TDate.
Variable parseDateFilter : string -> TDateType * TFilterDate.
Variable checkDateCriteria : TDate -> TFilterDate -> TDateType -> bool.
Variable FILTER_TO_ISSUE_MAP : string -> option string.


Lemma isActiveFilter_Some key (values : list string) :
  values <> [] -> isActiveFilter (key, Some values) = true.
Proof. intros H. destruct values; [contradiction | reflexivity]. Qed.

(** An issue is kept by the evaluator, for a supplied filters object,
    exactly when it is not a hidden sub-issue and meets the condition of
    every active filter. *)
Lemma getFilteredIssues_In issues filters displayFilters issue :
  In issue (getFilteredIssues newDate parseDateFilter checkDateCriteria
              FILTER_TO_ISSUE_MAP issues (Some filters) displayFilters)
  <-> In issue issues
      /\ hiddenSubIssue issue displayFilters = false
      /\ forall entry, In entry filters -> isActiveFilter entry = true ->
                       filterCondition newDate parseDateFilter checkDateCriteria
                         FILTER_TO_ISSUE_MAP issue entry = true.
Proof.
  unfold getFilteredIssues. rewrite filter_In.
  assert ((forall entry, In entry filters -> isActiveFilter entry = true ->
                         filterCondition newDate parseDateFilter checkDateCriteria
                           FILTER_TO_ISSUE_MAP issue entry = true)
          <-> forallb (filterCondition newDate parseDateFilter checkDateCriteria
                         FILTER_TO_ISSUE_MAP issue) (filter isActiveFilter filters) = true)
    as Hall.
  { rewrite forallb_forall. split.
    - intros H entry Hin. apply filter_In in Hin. now apply H.
    - intros H entry Hin Hact. apply H. now apply filter_In. }
  rewrite Hall.
  destruct (hiddenSubIssue issue displayFilters).
  - split; [intros [_ H] | intros [_ [H _]]]; discriminate.
  - destruct (filter isActiveFilter filters) as [|entry active]; simpl; tauto.
Qed.

(** The condition of a categorical filter whose key the table maps to an
    issue property. *)
Lemma filterCondition_categorical issue key attr values :
  key <> "start_date" -> key <> "target_date" ->
  FILTER_TO_ISSUE_MAP key = Some attr -> attr <> EmptyString ->
  filterCondition newDate parseDateFilter checkDateCriteria
    FILTER_TO_ISSUE_MAP issue (key, Some values) = true
  <-> value_matches values (issue attr).
Proof.
  intros Hs Ht Hmap Hattr. unfold filterCondition.
  apply String.eqb_neq in Hs, Ht, Hattr. rewrite Hs, Ht, Hmap. simpl.
  rewrite Hattr. simpl.
  destruct (issue attr) as [| |s|l]; simpl; try (split; [discriminate | tauto]).
  - apply JSFacts.includes_In.
  - rewrite existsb_exists. split; intros [x [Hx Hl]]; exists x; split; auto;
      now apply JSFacts.includes_In.
Qed.

Lemma checkIssueDateFilter_missing issue filterKey dateFilters :
  value_truthy (issue filterKey) = false -> dateFilters <> [] ->
  checkIssueDateFilter newDate parseDateFilter checkDateCriteria
    issue filterKey (Some dateFilters) = false.
Proof.
  intros Hv Hne. unfold checkIssueDateFilter.
  destruct dateFilters; [contradiction|]. simpl. now rewrite Hv.
Qed.







(** C7 (amended).  When a filters object is supplied, an issue whose
    parent reference is not null is excluded whenever
    [displayFilters.sub_issue] is false, whatever the filters are: the
    check comes before every categorical and date filter. *)
Theorem getFilteredIssues_sub_issue_hidden issues filters displayFilters issue :
  issue "parent_id" <> VNull ->
  sub_issue displayFilters = Some false ->
  ~ In issue (getFilteredIssues newDate parseDateFilter checkDateCriteria
                FILTER_TO_ISSUE_MAP issues (Some filters) (Some displayFilters)).
Proof.
  intros Hparent Hsub Hin.
  apply getFilteredIssues_In in Hin. destruct Hin as [_ [Hhidden _]].
  unfold hiddenSubIssue in Hhidden. rewrite Hsub in Hhidden.
  destruct (issue "parent_id"); try discriminate. now apply Hparent.
Qed.

(** C8.  An issue whose [target_date] is null or absent fails the date
    check against every non-empty list of date expressions, and is
    excluded by the evaluator under every filters object that configures
    such a list for [target_date]; an empty list of date expressions
    passes for every issue. *)
Theorem checkIssueDateFilter_missing_date issue dateFilters :
  issue "target_date" = VNull \/ issue "target_date" = VUndefined ->
  dateFilters <> [] ->
  checkIssueDateFilter newDate parseDateFilter checkDateCriteria
    issue "target_date" (Some dateFilters) = false
  /\ (forall issues filters displayFilters,
        In ("target_date", Some dateFilters) filters ->
        ~ In issue (getFilteredIssues newDate parseDateFilter checkDateCriteria
                      FILTER_TO_ISSUE_MAP issues (Some filters) displayFilters))
  /\ (forall anyIssue filterKey,
        checkIssueDateFilter newDate parseDateFilter checkDateCriteria
          anyIssue filterKey (Some []) = true).
Proof.
  intros Hdate Hne.
  assert (checkIssueDateFilter newDate parseDateFilter checkDateCriteria
            issue "target_date" (Some dateFilters) = false) as Hcheck.
  { apply checkIssueDateFilter_missing; [|exact Hne].
    destruct Hdate as [-> | ->]; reflexivity. }
  split; [exact Hcheck|]. split; [|reflexivity].
  intros issues filters df Hentry Hin.
  apply getFilteredIssues_In in Hin. destruct Hin as [_ [_ Hall]].
  specialize (Hall _ Hentry (isActiveFilter_Some _ Hne)).
  change (filterCondition newDate parseDateFilter checkDateCriteria
            FILTER_TO_ISSUE_MAP issue ("target_date", Some dateFilters))
    with (checkIssueDateFilter newDate parseDateFilter checkDateCriteria
            issue "target_date" (Some dateFilters)) in Hall.
  rewrite Hcheck in Hall. discriminate.
Qed.

(** C10.  When the filters argument is undefined the evaluator returns
    the list of issues unchanged, whatever the display filters are: an
    issue with a parent stays in the list even when
    [displayFilters.sub_issue] is false. *)
Theorem getFilteredIssues_no_filters issues displayFilters :
  getFilteredIssues newDate parseDateFilter checkDateCriteria
    FILTER_TO_ISSUE_MAP issues None displayFilters = issues
  /\ (forall issue,
        In issue issues -> issue "parent_id" <> VNull ->
        displayFilters = Some (mkDisplayFilters (Some false)) ->
        In issue (getFilteredIssues newDate parseDateFilter checkDateCriteria
                    FILTER_TO_ISSUE_MAP issues None displayFilters)).
Proof. split; [reflexivity | intros issue Hin _ _; exact Hin]. Qed.

End FilterFacts.



(** Under the same filter, an issue with status [done] and priority
    [high] is kept. *)
Example getFilteredIssues_and_or_law_included :
  getFilteredIssues sample_newDate sample_parseDateFilter
    sample_checkDateCriteria sample_FILTER_TO_ISSUE_MAP
    [sample_issue "done" "high" VNull; sample_issue "todo" "high" VNull;
     sample_issue "cancelled" "low" VNull]
    (Some [("status", Some ["done"; "cancelled"]); ("priority", Some ["high"])])
    None
  = [sample_issue "done" "high" VNull].
Proof. reflexivity. Qed.

(** C7, on an issue with a parent that meets the only filter. *)
Lemma getFilteredIssues_sub_issue_hidden_witness :
  ~ In (sample_issue "done" "high" (VString "p1"))
       (getFilteredIssues sample_newDate sample_parseDateFilter
          sample_checkDateCriteria sample_FILTER_TO_ISSUE_MAP
          [sample_issue "done" "high" (VString "p1")]
          (Some [("status", Some ["done"])])
          (Some (mkDisplayFilters (Some false)))).
Proof.
  apply getFilteredIssues_sub_issue_hidden.
  - discriminate.
  - reflexivity.
Defined.

(** C7 as stated fails when no filters object is supplied: the issue with
    a parent is returned although [sub_issue] is false. *)
Lemma getFilteredIssues_sub_issue_hidden_counterexample :
  sample_issue "done" "high" (VString "p1") "parent_id" <> VNull
  /\ getFilteredIssues sample_newDate sample_parseDateFilter
       sample_checkDateCriteria sample_FILTER_TO_ISSUE_MAP
       [sample_issue "done" "high" (VString "p1")]
       None
       (Some (mkDisplayFilters (Some false)))
     = [sample_issue "done" "high" (VString "p1")].
Proof. split; [discriminate | reflexivity]. Qed.

(** C8, on an issue without a target date and one date expression. *)
Lemma checkIssueDateFilter_missing_date_witness :
  checkIssueDateFilter sample_newDate sample_parseDateFilter sample_checkDateCriteria
    (sample_issue "done" "high" VNull) "target_date" (Some ["2024-01-01;after"])
  = false
  /\ ~ In (sample_issue "done" "high" VNull)
          (getFilteredIssues sample_newDate sample_parseDateFilter
             sample_checkDateCriteria sample_FILTER_TO_ISSUE_MAP
             [sample_issue "done" "high" VNull]
             (Some [("target_date", Some ["2024-01-01;after"])])
             None).
Proof.
  destruct (@checkIssueDateFilter_missing_date _ _ _ sample_newDate sample_parseDateFilter
              sample_checkDateCriteria sample_FILTER_TO_ISSUE_MAP
              (sample_issue "done" "high" VNull) ["2024-01-01;after"]
              (or_intror eq_refl) ltac:(discriminate)) as [Hcheck [Hall _]].
  split; [exact Hcheck|].
  apply Hall. simpl. auto.
Defined.

(* ================================================================== *)
(** * Key composer: distinct buckets, distinct keys *)
(* ================================================================== *)

Lemma has_underscore_app (a b : string) :
  has_underscore (a ++ "_" ++ b) = true.
Proof.
  induction a as [|c a IH]; simpl in *; [reflexivity|].
  rewrite IH. apply orb_true_r.
Qed.

Lemma append_underscore_inj (g g' s s' : string) :
  has_underscore g = false -> has_underscore g' = false ->
  g ++ "_" ++ s = g' ++ "_" ++ s' -> g = g' /\ s = s'.
Proof.
  revert g'. induction g as [|c g IH]; intros [|c' g'] Hg Hg' Heq; simpl in *.
  - injection Heq as ->. auto.
  - injection Heq as <- _. simpl in Hg'. discriminate.
  - injection Heq as -> _. simpl in Hg. discriminate.
  - injection Heq as -> Heq.
    apply orb_false_iff in Hg, Hg'.
    destruct (IH g' (proj2 Hg) (proj2 Hg') Heq) as [-> ->]. auto.
Qed.

Section KeyFacts.

Variable ALL_ISSUES : string.

Lemma getGroupKey_wf (g s : string) :
  wf_group g = true -> wf_sub_group s = true ->
  getGroupKey ALL_ISSUES (Some g) (Some s)
  = if s =? "null" then g else g ++ "_" ++ s.
Proof.
  unfold wf_group, wf_sub_group. intros Hg Hs.
  apply andb_true_iff in Hg. destruct Hg as [Hg _].
  unfold getGroupKey. simpl. rewrite Hg, Hs. simpl.
  now destruct (s =? "null").
Qed.

Lemma getGroupKey_wf_inj (g s g' s' : string) :
  wf_group g = true -> wf_sub_group s = true ->
  wf_group g' = true -> wf_sub_group s' = true ->
  getGroupKey ALL_ISSUES (Some g) (Some s) = getGroupKey ALL_ISSUES (Some g') (Some s') ->
  g = g' /\ s = s'.
Proof.
  intros Hg Hs Hg' Hs'. rewrite !getGroupKey_wf by assumption.
  unfold wf_group in Hg, Hg'. apply andb_true_iff in Hg, Hg'.
  destruct Hg as [_ Hg], Hg' as [_ Hg'].
  apply negb_true_iff in Hg, Hg'.
  destruct (s =? "null") eqn:E, (s' =? "null") eqn:E'; intros Heq.
  - apply String.eqb_eq in E, E'. subst. auto.
  - subst g. rewrite has_underscore_app in Hg. discriminate.
  - subst g'. rewrite has_underscore_app in Hg'. discriminate.
  - now apply append_underscore_inj.
Qed.

Lemma getGroupKey_wf_not_proto (g s : string) :
  wf_group g = true -> wf_sub_group s = true ->
  getGroupKey ALL_ISSUES (Some g) (Some s) <> "__proto__".
Proof.
  intros Hg Hs. rewrite getGroupKey_wf by assumption.
  unfold wf_group in Hg. apply andb_true_iff in Hg. destruct Hg as [Hne Hu].
  apply negb_true_iff in Hu.
  destruct g as [|c g]; [discriminate|]. simpl in Hu.
  apply orb_false_iff in Hu. destruct Hu as [Hc _].
  destruct (s =? "null"); simpl; intros Heq; injection Heq as -> _; discriminate.
Qed.

(** X1.  Two different pairs of a group value and a sub-group value get
    different bucket keys, and none gets the key ["__proto__"], when the
    group values are non-empty and free of underscores and the sub-group
    values are non-empty (the literal ["null"] included). *)
Theorem getGroupKey_distinct_buckets (g s g' s' : string) :
  wf_group g = true -> wf_sub_group s = true ->
  wf_group g' = true -> wf_sub_group s' = true ->
  (g, s) <> (g', s') ->
  getGroupKey ALL_ISSUES (Some g) (Some s) <> getGroupKey ALL_ISSUES (Some g') (Some s')
  /\ getGroupKey ALL_ISSUES (Some g) (Some s) <> "__proto__".
Proof.
  intros Hg Hs Hg' Hs' Hne. split; [|now apply getGroupKey_wf_not_proto].
  intros Heq. apply Hne.
  destruct (getGroupKey_wf_inj g s g' s' Hg Hs Hg' Hs' Heq) as [-> ->]. reflexivity.
Qed.

End KeyFacts.

(** X1, on two pairs that differ in the group value, one with the
    sub-group literal ["null"]. *)
Lemma getGroupKey_distinct_buckets_witness :
  getGroupKey sample_ALL_ISSUES (Some "A") (Some "null")
  <> getGroupKey sample_ALL_ISSUES (Some "B") (Some "x")
  /\ getGroupKey sample_ALL_ISSUES (Some "A") (Some "null") <> "__proto__".
Proof.
  apply getGroupKey_distinct_buckets; try reflexivity. discriminate.
Defined.

(* ================================================================== *)
(** * Set differ: further properties *)
(* ================================================================== *)

Lemma filter_nil_iff (A : Type) (f : A -> bool) (l : list A) :
  filter f l = [] <-> forall x, In x l -> f x = false.
Proof.
  induction l as [|a l IH]; simpl.
  - split; [intros _ x [] | reflexivity].
  - destruct (f a) eqn:E.
    + split; [discriminate|]. intros H. specialize (H a (or_introl eq_refl)). congruence.
    + rewrite IH. split.
      * intros H x [<-|Hx]; auto.
      * intros H x Hx. apply H. now right.
Qed.

(** X2.  Applying a diff to [previous] gives back [current]: a value is
    in [current] exactly when it is in [previous] and not in DELETE, or in
    ADD. *)
Theorem getDifference_patch (current previous : list string) (x : string) :
  In x current
  <-> (In x previous /\ ~ In x (onDELETE (getDifference current previous None)))
      \/ In x (onADD (getDifference current previous None)).
Proof.
  rewrite getDifference_ADD_In, getDifference_DELETE_In.
  destruct (In_dec_includes previous x), (In_dec_includes current x); tauto.
Qed.

(** X3.  The diff is empty on both sides exactly when the two lists have
    the same members, whatever their order and repetitions. *)
Theorem getDifference_empty_iff (current previous : list string) :
  getDifference current previous None = mkActions [] []
  <-> set_equal current previous.
Proof.
  split.
  - intros H x.
    pose proof (getDifference_ADD_In current previous x) as Ha.
    pose proof (getDifference_DELETE_In current previous x) as Hd.
    rewrite H in Ha, Hd. simpl in Ha, Hd.
    destruct (In_dec_includes previous x), (In_dec_includes current x); tauto.
  - intros H.
    assert (onADD (getDifference current previous None) = []) as Ha.
    { rewrite getDifference_ADD_filter. apply filter_nil_iff.
      intros x Hx. apply negb_false_iff, JSFacts.includes_In. now apply H. }
    assert (onDELETE (getDifference current previous None) = []) as Hd.
    { rewrite getDifference_DELETE_filter. apply filter_nil_iff.
      intros x Hx. apply negb_false_iff, JSFacts.includes_In. now apply H. }
    destruct (getDifference current previous None) as [a d]. simpl in Ha, Hd.
    now subst.
Qed.

(** X4.  Called with the action [DELETE], the differ returns an empty ADD
    list and a DELETE list that holds the members of [previous] absent
    from [current], each once; called with the action [ADD], it returns an
    empty DELETE list. *)
Theorem getDifference_DELETE_restricted (current previous : list string) :
  onADD (getDifference current previous (Some DELETE)) = []
  /\ NoDup (onDELETE (getDifference current previous (Some DELETE)))
  /\ (forall x, In x (onDELETE (getDifference current previous (Some DELETE)))
                <-> In x previous /\ ~ In x current)
  /\ onDELETE (getDifference current previous (Some ADD)) = [].
Proof.
  rewrite getDifference_DELETE_only. simpl.
  split; [reflexivity|]. split; [apply JSFacts.uniq_NoDup|].
  split; [|reflexivity].
  intros x. rewrite JSFacts.uniq_In. apply getDifference_DELETE_In.
Qed.

(* ================================================================== *)
(** * Single-dimension planner *)
(* ================================================================== *)

Lemma push_loop_map (A B : Type) (f : A -> B) (l : list A) (acc : list B) :
  fold_left (fun acc x => JS.push acc (f x)) l acc = (acc ++ map f l)%list.
Proof.
  revert acc. induction l as [|x l IH]; intros acc; simpl.
  - now rewrite app_nil_r.
  - rewrite IH. unfold JS.push. now rewrite <- app_assoc.
Qed.

Lemma getGroupIssueKeyActions_maps (addArray deleteArray : list string) :
  getGroupIssueKeyActions addArray deleteArray
  = (map (fun addKey => mkKeyAction [addKey] ADD) addArray
     ++ map (fun deleteKey => mkKeyAction [deleteKey] DELETE) deleteArray)%list.
Proof. unfold getGroupIssueKeyActions. now rewrite !push_loop_map. Qed.

(** X5.  The single-dimension planner returns one ADD per element of
    [addArray] followed by one DELETE per element of [deleteArray], in
    input order and without deduplication: its length is the sum of the
    two lengths, the entry at a position below the length of [addArray] is
    the ADD of the key at that position, and the entry at a later position
    is the DELETE of the corresponding key. *)
Theorem getGroupIssueKeyActions_adds_then_deletes (addArray deleteArray : list string) :
  List.length (getGroupIssueKeyActions addArray deleteArray)
  = List.length addArray + List.length deleteArray
  /\ (forall i, i < List.length addArray ->
        nth_error (getGroupIssueKeyActions addArray deleteArray) i
        = option_map (fun k => mkKeyAction [k] ADD) (nth_error addArray i))
  /\ (forall i,
        nth_error (getGroupIssueKeyActions addArray deleteArray) (List.length addArray + i)
        = option_map (fun k => mkKeyAction [k] DELETE) (nth_error deleteArray i)).
Proof.
  rewrite getGroupIssueKeyActions_maps. split; [|split].
  - now rewrite length_app, !length_map.
  - intros i Hi. rewrite nth_error_app1 by now rewrite length_map.
    apply nth_error_map.
  - intros i. rewrite nth_error_app2 by (rewrite length_map; lia).
    rewrite length_map. replace (List.length addArray + i - List.length addArray) with i by lia.
    apply nth_error_map.
Qed.

(** X6.  Single-dimension reconciliation: planning the diff of [current]
    against [previous] returns an ADD at [[g]] exactly for the values [g]
    of [current] absent from [previous], a DELETE at [[g]] exactly for the
    values of [previous] absent from [current], and nothing else; no path
    is both added and deleted. *)
Theorem getGroupIssueKeyActions_of_difference (current previous : list string) :
  (forall e,
      In e (getGroupIssueKeyActions
              (onADD (getDifference current previous None))
              (onDELETE (getDifference current previous None)))
      <-> exists g,
            path e = [g]
            /\ ((action e = ADD /\ In g current /\ ~ In g previous)
                \/ (action e = DELETE /\ In g previous /\ ~ In g current)))
  /\ (forall p,
        ~ (In (mkKeyAction p ADD)
              (getGroupIssueKeyActions
                 (onADD (getDifference current previous None))
                 (onDELETE (getDifference current previous None)))
           /\ In (mkKeyAction p DELETE)
                 (getGroupIssueKeyActions
                    (onADD (getDifference current previous None))
                    (onDELETE (getDifference current previous None))))).
Proof.
  assert (forall e,
      In e (getGroupIssueKeyActions
              (onADD (getDifference current previous None))
              (onDELETE (getDifference current previous None)))
      <-> exists g,
            path e = [g]
            /\ ((action e = ADD /\ In g current /\ ~ In g previous)
                \/ (action e = DELETE /\ In g previous /\ ~ In g current))) as Hin.
  { intros e. rewrite getGroupIssueKeyActions_maps, in_app_iff, !in_map_iff. split.
    - intros [[g [<- Hg]]|[g [<- Hg]]]; exists g; simpl.
      + apply getDifference_ADD_In in Hg. tauto.
      + apply getDifference_DELETE_In in Hg. tauto.
    - intros [g [Hp [[Ha Hg]|[Ha Hg]]]]; destruct e as [p a]; simpl in *; subst.
      + left. exists g. split; [reflexivity|]. now apply getDifference_ADD_In.
      + right. exists g. split; [reflexivity|]. now apply getDifference_DELETE_In. }
  split; [exact Hin|].
  intros p [Ha Hd]. apply Hin in Ha, Hd. simpl in Ha, Hd.
  destruct Ha as [g [Hp [[_ [Hc Hnp]]|[Hx _]]]]; [|discriminate].
  destruct Hd as [g' [Hp' [[Hx _]|[_ [Hpr Hnc]]]]]; [discriminate|].
  rewrite Hp in Hp'. injection Hp' as <-. contradiction.
Qed.

(* ================================================================== *)
(** * Two-dimension planner: what it returns *)
(* ================================================================== *)

Section PlannerExtras.

Variable ALL_ISSUES : string.

(** Where a planned write comes from. *)
Lemma plannedWrites_origin
    (groupActionsArray subGroupActionsArray : TGroupedActions)
    (previousIssueGroupProperties currentIssueGroupProperties
     previousIssueSubGroupProperties currentIssueSubGroupProperties : list string)
    (w : string * TIssueKeyAction) :
  In w (plannedWrites ALL_ISSUES groupActionsArray subGroupActionsArray
          previousIssueGroupProperties currentIssueGroupProperties
          previousIssueSubGroupProperties currentIssueSubGroupProperties)
  <-> exists g s,
        w = (getGroupKey ALL_ISSUES (Some g) (Some s), mkKeyAction [g; s] ADD)
        /\ ((In g (at_action groupActionsArray ADD)
             /\ In s currentIssueSubGroupProperties)
            \/ (In s (at_action subGroupActionsArray ADD)
                /\ In g currentIssueGroupProperties))
        \/ w = (getGroupKey ALL_ISSUES (Some g) (Some s), mkKeyAction [g; s] DELETE)
           /\ ((In g (at_action groupActionsArray DELETE)
                /\ In s previousIssueSubGroupProperties)
               \/ (In s (at_action subGroupActionsArray DELETE)
                   /\ In g previousIssueGroupProperties)).
Proof.
  unfold plannedWrites. rewrite !in_app_iff, !in_flat_map. split.
  - intros [H|[H|[H|H]]]; destruct H as [a [Ha H]];
      apply in_map_iff in H; destruct H as [b [<- Hb]].
    + exists a, b. left. auto.
    + exists a, b. right. auto.
    + exists b, a. left. auto.
    + exists b, a. right. auto.
  - intros [g [s [[-> [[Hg Hs]|[Hs Hg]]]|[-> [[Hg Hs]|[Hs Hg]]]]]].
    + left. exists g. split; [exact Hg|]. apply in_map_iff. now exists s.
    + right. right. left. exists s. split; [exact Hs|]. apply in_map_iff. now exists g.
    + right. left. exists g. split; [exact Hg|]. apply in_map_iff. now exists s.
    + right. right. right. exists s. split; [exact Hs|]. apply in_map_iff. now exists g.
Qed.

Lemma plannedWrites_length
    (groupActionsArray subGroupActionsArray : TGroupedActions)
    (previousIssueGroupProperties currentIssueGroupProperties
     previousIssueSubGroupProperties currentIssueSubGroupProperties : list string) :
  List.length (plannedWrites ALL_ISSUES groupActionsArray subGroupActionsArray
                 previousIssueGroupProperties currentIssueGroupProperties
                 previousIssueSubGroupProperties currentIssueSubGroupProperties)
  = List.length (at_action groupActionsArray ADD)
      * List.length currentIssueSubGroupProperties
    + List.length (at_action groupActionsArray DELETE)
      * List.length previousIssueSubGroupProperties
    + List.length (at_action subGroupActionsArray ADD)
      * List.length currentIssueGroupProperties
    + List.length (at_action subGroupActionsArray DELETE)
      * List.length previousIssueGroupProperties.
Proof.
  assert (forall (A B C : Type) (f : A -> B -> C) (outer : list A) (inner : list B),
             List.length (flat_map (fun a => map (f a) inner) outer)
             = List.length outer * List.length inner) as Hprod.
  { intros A B C f outer inner. induction outer as [|a outer IH]; simpl; [reflexivity|].
    now rewrite length_app, length_map, IH. }
  unfold plannedWrites. rewrite !length_app, !Hprod. lia.
Qed.

(** X7.  Whatever its arguments, the two-dimension planner returns only
    entries of the four cross products: every entry has a path of two
    components [[g; s]] and is an ADD with [g] in the group ADD list and
    [s] a current sub-group value, or with [s] in the sub-group ADD list
    and [g] a current group value, or a DELETE with [g] in the group
    DELETE list and [s] a previous sub-group value, or with [s] in the
    sub-group DELETE list and [g] a previous group value. *)
Theorem getSubGroupIssueKeyActions_sound
    (groupActionsArray subGroupActionsArray : TGroupedActions)
    (previousIssueGroupProperties currentIssueGroupProperties
     previousIssueSubGroupProperties currentIssueSubGroupProperties : list string) :
  Forall (fun e =>
            exists g s,
              path e = [g; s]
              /\ ((action e = ADD
                   /\ ((In g (at_action groupActionsArray ADD)
                        /\ In s currentIssueSubGroupProperties)
                       \/ (In s (at_action subGroupActionsArray ADD)
                           /\ In g currentIssueGroupProperties)))
                  \/ (action e = DELETE
                      /\ ((In g (at_action groupActionsArray DELETE)
                           /\ In s previousIssueSubGroupProperties)
                          \/ (In s (at_action subGroupActionsArray DELETE)
                              /\ In g previousIssueGroupProperties)))))
         (getSubGroupIssueKeyActions ALL_ISSUES groupActionsArray subGroupActionsArray
            previousIssueGroupProperties currentIssueGroupProperties
            previousIssueSubGroupProperties currentIssueSubGroupProperties).
Proof.
  apply Forall_forall. intros e He.
  apply result_last_write in He. destruct He as [k [_ Hlast]].
  apply JSFacts.lastWrite_In, plannedWrites_origin in Hlast.
  destruct Hlast as [g [s [[[= _ ->] H]|[[= _ ->] H]]]]; exists g, s; simpl; auto.
Qed.

(** X8.  The planner returns at most as many entries as the four cross
    products have pairs, and no two of its entries are equal. *)
Theorem getSubGroupIssueKeyActions_length
    (groupActionsArray subGroupActionsArray : TGroupedActions)
    (previousIssueGroupProperties currentIssueGroupProperties
     previousIssueSubGroupProperties currentIssueSubGroupProperties : list string) :
  List.length
    (getSubGroupIssueKeyActions ALL_ISSUES groupActionsArray subGroupActionsArray
       previousIssueGroupProperties currentIssueGroupProperties
       previousIssueSubGroupProperties currentIssueSubGroupProperties)
  <= List.length (at_action groupActionsArray ADD)
       * List.length currentIssueSubGroupProperties
     + List.length (at_action groupActionsArray DELETE)
       * List.length previousIssueSubGroupProperties
     + List.length (at_action subGroupActionsArray ADD)
       * List.length currentIssueGroupProperties
     + List.length (at_action subGroupActionsArray DELETE)
       * List.length previousIssueGroupProperties
  /\ NoDup
       (getSubGroupIssueKeyActions ALL_ISSUES groupActionsArray subGroupActionsArray
          previousIssueGroupProperties currentIssueGroupProperties
          previousIssueSubGroupProperties currentIssueSubGroupProperties).
Proof.
  assert (NoDup
       (getSubGroupIssueKeyActions ALL_ISSUES groupActionsArray subGroupActionsArray
          previousIssueGroupProperties currentIssueGroupProperties
          previousIssueSubGroupProperties currentIssueSubGroupProperties)) as Hnd.
  { apply (NoDup_map_inv (keyOfAction ALL_ISSUES)). apply result_keys_NoDup. }
  split; [|exact Hnd].
  rewrite <- plannedWrites_length, <- (length_map snd).
  apply NoDup_incl_length; [exact Hnd|].
  intros e He. apply result_last_write in He. destruct He as [k [_ Hlast]].
  apply JSFacts.lastWrite_In in Hlast.
  change e with (snd (k, e)). now apply in_map.
Qed.

(** X9.  No returned entry has the composed key ["__proto__"]: a write
    under that key leaves no property in the accumulator. *)
Theorem getSubGroupIssueKeyActions_never_proto
    (groupActionsArray subGroupActionsArray : TGroupedActions)
    (previousIssueGroupProperties currentIssueGroupProperties
     previousIssueSubGroupProperties currentIssueSubGroupProperties : list string) :
  Forall (fun e => keyOfAction ALL_ISSUES e <> "__proto__")
         (getSubGroupIssueKeyActions ALL_ISSUES groupActionsArray subGroupActionsArray
            previousIssueGroupProperties currentIssueGroupProperties
            previousIssueSubGroupProperties currentIssueSubGroupProperties).
Proof.
  apply Forall_forall. intros e He.
  apply result_last_write in He. destruct He as [k [Hk Hlast]].
  apply JSFacts.lastWrite_In, writes_keyed in Hlast. simpl in Hlast. congruence.
Qed.

Section Reconciliation.

Variables previousGroup currentGroup previousSubGroup currentSubGroup : list string.

Let reconciled : list TIssueKeyAction :=
  getSubGroupIssueKeyActions ALL_ISSUES
    (getDifference currentGroup previousGroup None)
    (getDifference currentSubGroup previousSubGroup None)
    previousGroup currentGroup previousSubGroup currentSubGroup.

Let writes : list (string * TIssueKeyAction) :=
  plannedWrites ALL_ISSUES
    (getDifference currentGroup previousGroup None)
    (getDifference currentSubGroup previousSubGroup None)
    previousGroup currentGroup previousSubGroup currentSubGroup.

Lemma reconciliation_writes (w : string * TIssueKeyAction) :
  In w writes
  <-> fst w = keyOfAction ALL_ISSUES (snd w)
      /\ calledFor previousGroup currentGroup previousSubGroup currentSubGroup (snd w).
Proof.
  unfold writes. rewrite plannedWrites_origin. unfold calledFor. cbn [at_action]. split.
  - intros [g [s [[-> H]|[-> H]]]];
      rewrite ?getDifference_ADD_In, ?getDifference_DELETE_In in H;
      (split; [reflexivity|]); exists g, s; simpl;
      (split; [reflexivity|]); tauto.
  - intros [Hk [g [s [Hp H]]]]. destruct w as [k [p a]].
    cbn [fst snd path action] in *. subst p k.
    exists g, s. rewrite !getDifference_ADD_In, !getDifference_DELETE_In.
    destruct (In_dec_includes previousGroup g), (In_dec_includes currentGroup g),
      (In_dec_includes previousSubGroup s), (In_dec_includes currentSubGroup s);
      destruct H as [[-> H]|[-> H]]; try tauto;
      solve [ left; split; [reflexivity | tauto]
            | right; split; [reflexivity | tauto] ].
Qed.

Hypothesis group_values_wf :
  forallb wf_group (previousGroup ++ currentGroup) = true.
Hypothesis sub_group_values_wf :
  forallb wf_sub_group (previousSubGroup ++ currentSubGroup) = true.

Lemma calledFor_wf (e : TIssueKeyAction) :
  calledFor previousGroup currentGroup previousSubGroup currentSubGroup e ->
  exists g s, path e = [g; s] /\ wf_group g = true /\ wf_sub_group s = true.
Proof.
  intros [g [s [Hp H]]]. exists g, s. split; [exact Hp|].
  rewrite forallb_forall in group_values_wf, sub_group_values_wf.
  split; [apply group_values_wf | apply sub_group_values_wf];
    apply in_or_app; tauto.
Qed.

Lemma calledFor_same_key (e e' : TIssueKeyAction) :
  calledFor previousGroup currentGroup previousSubGroup currentSubGroup e ->
  calledFor previousGroup currentGroup previousSubGroup currentSubGroup e' ->
  keyOfAction ALL_ISSUES e = keyOfAction ALL_ISSUES e' -> e = e'.
Proof.
  intros He He' Hkey.
  destruct (calledFor_wf He) as [g [s [Hp [Hg Hs]]]].
  destruct (calledFor_wf He') as [g' [s' [Hp' [Hg' Hs']]]].
  unfold keyOfAction in Hkey. rewrite Hp, Hp' in Hkey. simpl in Hkey.
  destruct (getGroupKey_wf_inj ALL_ISSUES g s g' s' Hg Hs Hg' Hs' Hkey) as [<- <-].
  destruct He as [g0 [s0 [Hq H]]], He' as [g1 [s1 [Hq' H']]].
  rewrite Hp in Hq. rewrite Hp' in Hq'.
  injection Hq as <- <-. injection Hq' as <- <-.
  destruct e as [p a], e' as [p' a']. simpl in *. subst p p'.
  destruct H as [[-> H]|[-> H]], H' as [[-> H']|[-> H']]; try reflexivity; tauto.
Qed.

Lemma reconciled_In (e : TIssueKeyAction) :
  In e reconciled
  <-> calledFor previousGroup currentGroup previousSubGroup currentSubGroup e.
Proof.
  unfold reconciled. rewrite result_last_write. fold writes. split.
  - intros [k [_ Hlast]]. apply JSFacts.lastWrite_In in Hlast.
    apply reconciliation_writes in Hlast. tauto.
  - intros He. exists (keyOfAction ALL_ISSUES e).
    destruct (calledFor_wf He) as [g [s [Hp [Hg Hs]]]].
    split.
    + unfold keyOfAction. rewrite Hp. simpl. now apply getGroupKey_wf_not_proto.
    + assert (In (keyOfAction ALL_ISSUES e, e) writes) as Hw
        by (apply reconciliation_writes; simpl; auto).
      destruct (JSFacts.lastWrite_written _ _ _ Hw) as [e' He'].
      rewrite He'. f_equal.
      pose proof (JSFacts.lastWrite_In _ _ He') as Hw'.
      apply reconciliation_writes in Hw'. simpl in Hw'. destruct Hw' as [Hk' Hc'].
      symmetry. now apply calledFor_same_key.
Qed.

End Reconciliation.

(** X10.  Two-dimension reconciliation is exact on well-formed values.
    When every group value is non-empty and free of underscores and every
    sub-group value is non-empty, planning the diffs of both dimensions
    returns an ADD at [[g; s]] exactly for the pairs of current values
    that are not pairs of previous values, a DELETE at [[g; s]] exactly
    for the pairs of previous values that are not pairs of current values,
    and nothing else. *)
Theorem getSubGroupIssueKeyActions_reconciles
    (previousGroup currentGroup previousSubGroup currentSubGroup : list string) :
  forallb wf_group (previousGroup ++ currentGroup) = true ->
  forallb wf_sub_group (previousSubGroup ++ currentSubGroup) = true ->
  forall e,
    In e (getSubGroupIssueKeyActions ALL_ISSUES
            (getDifference currentGroup previousGroup None)
            (getDifference currentSubGroup previousSubGroup None)
            previousGroup currentGroup previousSubGroup currentSubGroup)
    <-> calledFor previousGroup currentGroup previousSubGroup currentSubGroup e.
Proof. intros Hg Hs e. now apply reconciled_In. Qed.

(** X11.  A reconciliation without change is empty: when the current and
    the previous values have the same members on both dimensions, the
    planner applied to the two diffs returns no action. *)
Theorem getSubGroupIssueKeyActions_no_change
    (previousGroup currentGroup previousSubGroup currentSubGroup : list string) :
  set_equal currentGroup previousGroup ->
  set_equal currentSubGroup previousSubGroup ->
  getSubGroupIssueKeyActions ALL_ISSUES
    (getDifference currentGroup previousGroup None)
    (getDifference currentSubGroup previousSubGroup None)
    previousGroup currentGroup previousSubGroup currentSubGroup = [].
Proof.
  intros Hg Hs.
  assert (getDifference currentGroup previousGroup None = mkActions [] []) as ->.
  { destruct (getDifference currentGroup previousGroup None) as [a d] eqn:E.
    pose proof (getDifference_ADD_filter currentGroup previousGroup) as Ha.
    pose proof (getDifference_DELETE_filter currentGroup previousGroup) as Hd.
    rewrite E in Ha, Hd. simpl in Ha, Hd. subst a d. f_equal.
    - apply filter_nil_iff. intros x Hx.
      apply negb_false_iff, JSFacts.includes_In. now apply Hg.
    - apply filter_nil_iff. intros x Hx.
      apply negb_false_iff, JSFacts.includes_In. now apply Hg. }
  assert (getDifference currentSubGroup previousSubGroup None = mkActions [] []) as ->.
  { destruct (getDifference currentSubGroup previousSubGroup None) as [a d] eqn:E.
    pose proof (getDifference_ADD_filter currentSubGroup previousSubGroup) as Ha.
    pose proof (getDifference_DELETE_filter currentSubGroup previousSubGroup) as Hd.
    rewrite E in Ha, Hd. simpl in Ha, Hd. subst a d. f_equal.
    - apply filter_nil_iff. intros x Hx.
      apply negb_false_iff, JSFacts.includes_In. now apply Hs.
    - apply filter_nil_iff. intros x Hx.
      apply negb_false_iff, JSFacts.includes_In. now apply Hs. }
  reflexivity.
Qed.

End PlannerExtras.

(** X10, for an issue that moves from group [A] to group [B] and from the
    sub-groups [x], [y] to [y], [z]: the ADD at (B, z) is returned. *)
Lemma getSubGroupIssueKeyActions_reconciles_witness :
  In (mkKeyAction ["B"; "z"] ADD)
     (getSubGroupIssueKeyActions sample_ALL_ISSUES
        (getDifference ["B"] ["A"] None) (getDifference ["y"; "z"] ["x"; "y"] None)
        ["A"] ["B"] ["x"; "y"] ["y"; "z"]).
Proof.
  apply (getSubGroupIssueKeyActions_reconciles sample_ALL_ISSUES
           ["A"] ["B"] ["x"; "y"] ["y"; "z"] eq_refl eq_refl).
  exists "B", "z". split; [reflexivity|]. left.
  simpl. intuition discriminate.
Defined.

(** X11, for the same values listed in another order. *)
Lemma getSubGroupIssueKeyActions_no_change_witness :
  getSubGroupIssueKeyActions sample_ALL_ISSUES
    (getDifference ["A"; "B"] ["B"; "A"] None) (getDifference ["x"] ["x"; "x"] None)
    ["B"; "A"] ["A"; "B"] ["x"; "x"] ["x"] = [].
Proof.
  apply getSubGroupIssueKeyActions_no_change; intros v; simpl; tauto.
Defined.

(* ================================================================== *)
(** * Filter evaluator: further properties *)
(* ================================================================== *)

Lemma filter_idempotent (A : Type) (f : A -> bool) (l : list A) :
  filter f (filter f l) = filter f l.
Proof.
  induction l as [|a l IH]; simpl; [reflexivity|].
  destruct (f a) eqn:E; simpl; [rewrite E; now f_equal | exact IH].
Qed.

Lemma filter_perm (A : Type) (f : A -> bool) (l l' : list A) :
  Permutation l l' -> Permutation (filter f l) (filter f l').
Proof.
  induction 1 as [|x l l' _ IH|x y l|l l' l'' _ IH1 _ IH2]; simpl.
  - constructor.
  - destruct (f x); [now constructor | exact IH].
  - destruct (f x), (f y); try reflexivity. apply perm_swap.
  - now transitivity (filter f l').
Qed.

Lemma forallb_perm (A : Type) (f : A -> bool) (l l' : list A) :
  Permutation l l' -> forallb f l = forallb f l'.
Proof.
  induction 1 as [|x l l' _ IH|x y l|l l' l'' _ IH1 _ IH2]; simpl.
  - reflexivity.
  - now rewrite IH.
  - now destruct (f x), (f y).
  - congruence.
Qed.

Section FilterExtras.

Variables TDate TFilterDate TDateType : Type.
Variable newDate : TValue -> TDate.
Variable parseDateFilter : string -> TDateType * TFilterDate.
Variable checkDateCriteria : TDate -> TFilterDate -> TDateType -> bool.
Variable FILTER_TO_ISSUE_MAP : string -> option string.

(** The test the evaluator applies to one issue under a filters object. *)
Lemma getFilteredIssues_filter issues filters displayFilters :
  getFilteredIssues newDate parseDateFilter checkDateCriteria
    FILTER_TO_ISSUE_MAP issues (Some filters) displayFilters
  = filter (fun issue =>
              negb (hiddenSubIssue issue displayFilters)
              && forallb (filterCondition newDate parseDateFilter checkDateCriteria
                            FILTER_TO_ISSUE_MAP issue)
                         (filter isActiveFilter filters))
           issues.
Proof.
  unfold getFilteredIssues. apply filter_ext. intros issue.
  destruct (hiddenSubIssue issue displayFilters); [reflexivity|].
  now destruct (filter isActiveFilter filters).
Qed.

(** X12.  Every issue is judged on its own: filtering a concatenation is
    concatenating the filtered parts, and filtering an already filtered
    list changes nothing. *)
Theorem getFilteredIssues_pointwise issues issues' filters displayFilters :
  getFilteredIssues newDate parseDateFilter checkDateCriteria
    FILTER_TO_ISSUE_MAP (issues ++ issues') filters displayFilters
  = (getFilteredIssues newDate parseDateFilter checkDateCriteria
       FILTER_TO_ISSUE_MAP issues filters displayFilters
     ++ getFilteredIssues newDate parseDateFilter checkDateCriteria
          FILTER_TO_ISSUE_MAP issues' filters displayFilters)%list
  /\ getFilteredIssues newDate parseDateFilter checkDateCriteria
       FILTER_TO_ISSUE_MAP
       (getFilteredIssues newDate parseDateFilter checkDateCriteria
          FILTER_TO_ISSUE_MAP issues filters displayFilters)
       filters displayFilters
     = getFilteredIssues newDate parseDateFilter checkDateCriteria
         FILTER_TO_ISSUE_MAP issues filters displayFilters.
Proof.
  destruct filters as [filters|]; [|split; reflexivity].
  rewrite !getFilteredIssues_filter. split.
  - apply filter_app.
  - apply filter_idempotent.
Qed.

(** X13.  The order in which the filters object lists its fields does not
    matter: two filters objects with the same entries in different orders
    select the same issues. *)
Theorem getFilteredIssues_filters_order issues filters filters' displayFilters :
  Permutation filters filters' ->
  getFilteredIssues newDate parseDateFilter checkDateCriteria
    FILTER_TO_ISSUE_MAP issues (Some filters) displayFilters
  = getFilteredIssues newDate parseDateFilter checkDateCriteria
      FILTER_TO_ISSUE_MAP issues (Some filters') displayFilters.
Proof.
  intros Hperm. rewrite !getFilteredIssues_filter. apply filter_ext.
  intros issue. f_equal. apply forallb_perm. now apply filter_perm.
Qed.

(** X14.  A filter field is ignored when its value list is empty or null,
    and when it is not a date field and the table maps its key to no
    issue property: adding such an entry to a filters object does not
    change the result. *)
Theorem getFilteredIssues_ignored_entry issues entry filters displayFilters :
  isActiveFilter entry = false
  \/ (fst entry <> "start_date" /\ fst entry <> "target_date"
      /\ JS.truthy (FILTER_TO_ISSUE_MAP (fst entry)) = false) ->
  getFilteredIssues newDate parseDateFilter checkDateCriteria
    FILTER_TO_ISSUE_MAP issues (Some (entry :: filters)) displayFilters
  = getFilteredIssues newDate parseDateFilter checkDateCriteria
      FILTER_TO_ISSUE_MAP issues (Some filters) displayFilters.
Proof.
  intros Hentry. rewrite !getFilteredIssues_filter. apply filter_ext.
  intros issue. f_equal. simpl.
  destruct (isActiveFilter entry) eqn:E; [|reflexivity].
  destruct Hentry as [H|[Hs [Ht Hmap]]]; [discriminate|].
  simpl. replace (filterCondition newDate parseDateFilter checkDateCriteria
                    FILTER_TO_ISSUE_MAP issue entry) with true; [reflexivity|].
  destruct entry as [key values]. simpl in Hs, Ht, Hmap.
  apply String.eqb_neq in Hs, Ht. unfold filterCondition.
  now rewrite Hs, Ht, Hmap.
Qed.

(** X15.  Adding a filter field never adds an issue to the result. *)
Theorem getFilteredIssues_more_filters issues entry filters displayFilters :
  incl (getFilteredIssues newDate parseDateFilter checkDateCriteria
          FILTER_TO_ISSUE_MAP issues (Some (entry :: filters)) displayFilters)
       (getFilteredIssues newDate parseDateFilter checkDateCriteria
          FILTER_TO_ISSUE_MAP issues (Some filters) displayFilters).
Proof.
  intros issue. rewrite !getFilteredIssues_In.
  intros [Hin [Hh Hall]]. split; [exact Hin|]. split; [exact Hh|].
  intros e He. apply Hall. now right.
Qed.

(** X16.  With a filters object none of whose fields is active, the
    evaluator removes the hidden sub-issues and nothing else; it returns
    the list unchanged when [displayFilters] is absent. *)
Theorem getFilteredIssues_no_active_filter issues filters displayFilters :
  forallb (fun entry => negb (isActiveFilter entry)) filters = true ->
  getFilteredIssues newDate parseDateFilter checkDateCriteria
    FILTER_TO_ISSUE_MAP issues (Some filters) displayFilters
  = filter (fun issue => negb (hiddenSubIssue issue displayFilters)) issues
  /\ getFilteredIssues newDate parseDateFilter checkDateCriteria
       FILTER_TO_ISSUE_MAP issues (Some filters) None
     = issues.
Proof.
  intros Hnone.
  assert (filter isActiveFilter filters = []) as Hactive.
  { apply filter_nil_iff. intros e He.
    rewrite forallb_forall in Hnone. now apply negb_true_iff, Hnone. }
  rewrite !getFilteredIssues_filter, Hactive. split.
  - apply filter_ext. intros issue. apply andb_true_r.
  - unfold hiddenSubIssue. simpl.
    induction issues as [|i l IH]; simpl; [reflexivity|].
    rewrite andb_false_r. simpl. now f_equal.
Qed.

(** X17.  Date expressions combine conjunctively: the check against two
    lists of expressions put together is the conjunction of the checks
    against each, for every issue and either date field. *)
Theorem checkIssueDateFilter_app issue filterKey (dateFilters dateFilters' : list string) :
  checkIssueDateFilter newDate parseDateFilter checkDateCriteria
    issue filterKey (Some (dateFilters ++ dateFilters')%list)
  = checkIssueDateFilter newDate parseDateFilter checkDateCriteria
      issue filterKey (Some dateFilters)
    && checkIssueDateFilter newDate parseDateFilter checkDateCriteria
         issue filterKey (Some dateFilters').
Proof.
  unfold checkIssueDateFilter.
  destruct dateFilters as [|d l]; simpl; [reflexivity|].
  destruct (value_truthy (issue filterKey)); simpl; [|reflexivity].
  rewrite forallb_app.
  destruct dateFilters' as [|d' l']; simpl; [|apply andb_assoc].
  now rewrite !andb_true_r.
Qed.

(** X18.  An issue whose value for a mapped categorical property is null,
    undefined or an empty array passes no active filter on that property:
    it is excluded whatever the allowed values are. *)
Theorem getFilteredIssues_missing_value
    issues filters displayFilters issue key attr values :
  key <> "start_date" -> key <> "target_date" ->
  FILTER_TO_ISSUE_MAP key = Some attr -> attr <> EmptyString ->
  issue attr = VNull \/ issue attr = VUndefined \/ issue attr = VArray [] ->
  In (key, Some values) filters -> values <> [] ->
  ~ In issue (getFilteredIssues newDate parseDateFilter checkDateCriteria
                FILTER_TO_ISSUE_MAP issues (Some filters) displayFilters).
Proof.
  intros Hs Ht Hmap Hattr Hval Hentry Hne Hin.
  apply getFilteredIssues_In in Hin. destruct Hin as [_ [_ Hall]].
  specialize (Hall _ Hentry (isActiveFilter_Some _ Hne)).
  apply (filterCondition_categorical newDate parseDateFilter checkDateCriteria
           FILTER_TO_ISSUE_MAP issue values Hs Ht Hmap Hattr) in Hall.
  destruct Hval as [E|[E|E]]; rewrite E in Hall; simpl in Hall; try contradiction.
  destruct Hall as [x [_ []]].
Qed.

End FilterExtras.

(** X13, on the status and priority filters in both orders. *)
Lemma getFilteredIssues_filters_order_witness :
  getFilteredIssues sample_newDate sample_parseDateFilter
    sample_checkDateCriteria sample_FILTER_TO_ISSUE_MAP
    [sample_issue "done" "high" VNull; sample_issue "done" "low" VNull]
    (Some [("status", Some ["done"]); ("priority", Some ["high"])]) None
  = getFilteredIssues sample_newDate sample_parseDateFilter
      sample_checkDateCriteria sample_FILTER_TO_ISSUE_MAP
      [sample_issue "done" "high" VNull; sample_issue "done" "low" VNull]
      (Some [("priority", Some ["high"]); ("status", Some ["done"])]) None.
Proof. apply getFilteredIssues_filters_order. apply perm_swap. Defined.

(** X14, on a key that the sample table does not map. *)
Lemma getFilteredIssues_ignored_entry_witness :
  getFilteredIssues sample_newDate sample_parseDateFilter
    sample_checkDateCriteria sample_FILTER_TO_ISSUE_MAP
    [sample_issue "done" "high" VNull; sample_issue "done" "low" VNull]
    (Some [("labels", Some ["bug"]); ("priority", Some ["high"])]) None
  = getFilteredIssues sample_newDate sample_parseDateFilter
      sample_checkDateCriteria sample_FILTER_TO_ISSUE_MAP
      [sample_issue "done" "high" VNull; sample_issue "done" "low" VNull]
      (Some [("priority", Some ["high"])]) None.
Proof.
  apply getFilteredIssues_ignored_entry. right.
  repeat split; try discriminate.
Defined.

(** X16, on a filters object with an empty and a null value list. *)
Lemma getFilteredIssues_no_active_filter_witness :
  getFilteredIssues sample_newDate sample_parseDateFilter
    sample_checkDateCriteria sample_FILTER_TO_ISSUE_MAP
    [sample_issue "done" "high" (VString "p1"); sample_issue "done" "low" VNull]
    (Some [("status", Some []); ("priority", None)])
    (Some (mkDisplayFilters (Some false)))
  = filter (fun issue =>
              negb (hiddenSubIssue issue (Some (mkDisplayFilters (Some false)))))
           [sample_issue "done" "high" (VString "p1"); sample_issue "done" "low" VNull].
Proof.
  apply (proj1 (getFilteredIssues_no_active_filter sample_newDate sample_parseDateFilter
                  sample_checkDateCriteria sample_FILTER_TO_ISSUE_MAP
                  [sample_issue "done" "high" (VString "p1");
                   sample_issue "done" "low" VNull]
                  [("status", Some []); ("priority", None)]
                  (Some (mkDisplayFilters (Some false))) eq_refl)).
Defined.

(** X18, on an issue all of whose properties are null. *)
Lemma getFilteredIssues_missing_value_witness :
  ~ In (fun _ : string => VNull)
       (getFilteredIssues sample_newDate sample_parseDateFilter
          sample_checkDateCriteria sample_FILTER_TO_ISSUE_MAP
          [fun _ : string => VNull]
          (Some [("status", Some ["done"])]) None).
Proof.
  apply (@getFilteredIssues_missing_value _ _ _ sample_newDate sample_parseDateFilter
           sample_checkDateCriteria sample_FILTER_TO_ISSUE_MAP
           [fun _ : string => VNull] [("status", Some ["done"])] None
           (fun _ : string => VNull) "status" "status" ["done"]);
    try discriminate; try reflexivity.
  - left. reflexivity.
  - simpl. auto.
Defined.

(* ================================================================== *)
(** * Active issue store *)
(* ================================================================== *)

Section ActiveStoreFacts.

Variable EIssuesStoreType : Type.
Variables GLOBAL PROFILE TEAM_VIEW TEAM PROJECT_VIEW CYCLE MODULE EPIC PROJECT
  : EIssuesStoreType.
Variable storeType_eqb : EIssuesStoreType -> EIssuesStoreType -> bool.

(** X19.  The helper finds no active store exactly when none of the
    global view, user, team, project, cycle, module and epic identifiers
    is set (a view identifier alone selects nothing); no store type is
    then reported as active. *)
Theorem getActiveIssueStoreType_none (router : TRouter) :
  (getActiveIssueStoreType GLOBAL PROFILE TEAM_VIEW TEAM PROJECT_VIEW
     CYCLE MODULE EPIC PROJECT router = None
   <-> JS.truthy (globalViewId router) = false
       /\ JS.truthy (userId router) = false
       /\ JS.truthy (teamId router) = false
       /\ JS.truthy (projectId router) = false
       /\ JS.truthy (cycleId router) = false
       /\ JS.truthy (moduleId router) = false
       /\ JS.truthy (epicId router) = false)
  /\ (getActiveIssueStoreType GLOBAL PROFILE TEAM_VIEW TEAM PROJECT_VIEW
        CYCLE MODULE EPIC PROJECT router = None ->
      forall currentStoreType,
        isCurrentIssueStoreActive GLOBAL PROFILE TEAM_VIEW TEAM PROJECT_VIEW
          CYCLE MODULE EPIC PROJECT storeType_eqb router currentStoreType = false).
Proof.
  split.
  - unfold getActiveIssueStoreType.
    destruct (JS.truthy (globalViewId router)), (JS.truthy (userId router)),
      (JS.truthy (teamId router)), (JS.truthy (viewId router)),
      (JS.truthy (projectId router)), (JS.truthy (cycleId router)),
      (JS.truthy (moduleId router)), (JS.truthy (epicId router));
      simpl; split; intros H; try discriminate; try tauto;
      repeat match goal with H : _ /\ _ |- _ => destruct H end; discriminate.
  - intros H t. unfold isCurrentIssueStoreActive. now rewrite H.
Qed.

(** X20.  The view identifier matters only inside a team or a project:
    when a global view or a user is selected, or when neither a team nor a
    project is, the active store does not depend on it. *)
Theorem getActiveIssueStoreType_viewId
    (globalView view view' project cycle module user epic team : option string) :
  JS.truthy globalView = true \/ JS.truthy user = true
  \/ (JS.truthy team = false /\ JS.truthy project = false) ->
  getActiveIssueStoreType GLOBAL PROFILE TEAM_VIEW TEAM PROJECT_VIEW
    CYCLE MODULE EPIC PROJECT
    (mkRouter globalView view project cycle module user epic team)
  = getActiveIssueStoreType GLOBAL PROFILE TEAM_VIEW TEAM PROJECT_VIEW
      CYCLE MODULE EPIC PROJECT
      (mkRouter globalView view' project cycle module user epic team).
Proof.
  unfold getActiveIssueStoreType. simpl.
  intros [H|[H|[Ht Hp]]].
  - now rewrite H.
  - rewrite H. now destruct (JS.truthy globalView).
  - rewrite Ht, Hp. reflexivity.
Qed.

End ActiveStoreFacts.

(** X20, for a cycle page reached with a stale view identifier. *)
Lemma getActiveIssueStoreType_viewId_witness :
  getActiveIssueStoreType sGLOBAL sPROFILE sTEAM_VIEW sTEAM sPROJECT_VIEW
    sCYCLE sMODULE sEPIC sPROJECT
    (mkRouter None (Some "v1") None (Some "c1") None None None None)
  = getActiveIssueStoreType sGLOBAL sPROFILE sTEAM_VIEW sTEAM sPROJECT_VIEW
      sCYCLE sMODULE sEPIC sPROJECT
      (mkRouter None None None (Some "c1") None None None None).
Proof.
  apply getActiveIssueStoreType_viewId. right. right. split; reflexivity.
Defined.

(* ================================================================== *)
(** * Sort order of empty values *)
(* ================================================================== *)

(** X21.  The sort order is 0 or 1.  It is 1 for a nullish object, for a
    key the object does not hold, and for a null value, a boolean, an
    empty string, an empty array and an object without property; it is 0
    for every number, and for a non-empty string or array. *)
Theorem getSortOrderToFilterEmptyValues_cases
    (TNumber : Type) (key : string) (o : JS.object (TAny TNumber)) :
  getSortOrderToFilterEmptyValues key (@None (JS.object (TAny TNumber))) = 1
  /\ getSortOrderToFilterEmptyValues key (Some o) <= 1
  /\ (JS.get key o = None -> getSortOrderToFilterEmptyValues key (Some o) = 1)
  /\ (forall v,
        JS.get key o = Some v ->
        (getSortOrderToFilterEmptyValues key (Some o) = 0
         <-> (exists n, v = ANumber n)
             \/ (exists s, v = AString TNumber s /\ s <> EmptyString)
             \/ (exists l, v = AArray l /\ l <> [])
             \/ (exists props, v = AObject props /\ props <> []))).
Proof.
  unfold getSortOrderToFilterEmptyValues, optionalRead.
  split; [reflexivity|]. split; [|split].
  - destruct (JS.get key o) as [v|]; simpl; [|lia].
    destruct (notNumber v && isEmpty v); lia.
  - intros ->. reflexivity.
  - intros v ->. destruct v as [| |b|n|s|l|props]; simpl; split;
      try discriminate;
      try (intros [[x H]|[[x [H _]]|[[x [H _]]|[x [H _]]]]]; discriminate).
    + intros _. left. now exists n.
    + reflexivity.
    + destruct s; simpl; [discriminate|]. intros _. right. left.
      eexists. split; [reflexivity | discriminate].
    + intros [[x H]|[[x [H Hne]]|[[x [H _]]|[x [H _]]]]]; try discriminate.
      injection H as <-. destruct s; [contradiction | reflexivity].
    + destruct l; simpl; [discriminate|]. intros _. right. right. left.
      eexists. split; [reflexivity | discriminate].
    + intros [[x H]|[[x [H _]]|[[x [H Hne]]|[x [H _]]]]]; try discriminate.
      injection H as <-. destruct l; [contradiction | reflexivity].
    + destruct props; simpl; [discriminate|]. intros _. right. right. right.
      eexists. split; [reflexivity | discriminate].
    + intros [[x H]|[[x [H _]]|[[x [H _]]|[x [H Hne]]]]]; try discriminate.
      injection H as <-. destruct props; [contradiction | reflexivity].
Qed.

(* ================================================================== *)
(** * Previous state of issues *)
(* ================================================================== *)

Section PreviousStateFacts.

Variable issuesMap : string -> option TIssue.

(** The writes of the loop over the issue ids. *)
Let snapshotWrites (issueIds : list TValue) : list (string * TIssue) :=
  flat_map (fun issueId =>
              match issuesMap (toPropertyKey issueId) with
              | Some stored => [(toPropertyKey issueId, cloneDeep stored)]
              | None => []
              end)
           issueIds.

Lemma previousState_writes (issueIds : list TValue) (acc : JS.object TIssue) :
  fold_left (fun acc issueId =>
               match issuesMap (toPropertyKey issueId) with
               | Some stored => JS.set (toPropertyKey issueId) (cloneDeep stored) acc
               | None => acc
               end)
            issueIds acc
  = fold_left (@JS.write _) (snapshotWrites issueIds) acc.
Proof.
  revert acc. induction issueIds as [|issueId l IH]; intros acc; simpl; [reflexivity|].
  rewrite fold_left_app, IH.
  now destruct (issuesMap (toPropertyKey issueId)).
Qed.

Lemma snapshotWrites_In (issueIds : list TValue) (k : string) (stored : TIssue) :
  In (k, stored) (snapshotWrites issueIds)
  <-> In k (map toPropertyKey issueIds) /\ issuesMap k = Some stored.
Proof.
  unfold snapshotWrites. rewrite in_flat_map, in_map_iff. split.
  - intros [issueId [Hid Hw]].
    destruct (issuesMap (toPropertyKey issueId)) as [i|] eqn:E; [|contradiction].
    destruct Hw as [[= <- <-]|[]]. split; [now exists issueId | exact E].
  - intros [[issueId [<- Hid]] Hmap]. exists issueId. split; [exact Hid|].
    rewrite Hmap. now left.
Qed.

(** X22.  The previous-state record holds, under the id of every given
    issue that the store knows, the issue of the store (not the given
    one), and nothing else: a key other than ["__proto__"] is bound
    exactly when it is the id of a given issue and the store has an issue
    for it, and it is bound to that stored issue; no key is bound twice. *)
Theorem getPreviousIssuesState_lookup (issues : list TIssue) (k : string) (stored : TIssue) :
  (JS.get k (getPreviousIssuesState issuesMap issues) = Some stored
   <-> k <> "__proto__"
       /\ In k (map (fun issue : TIssue => toPropertyKey (issue "id")) issues)
       /\ issuesMap k = Some stored)
  /\ NoDup (map fst (getPreviousIssuesState issuesMap issues)).
Proof.
  unfold getPreviousIssuesState. rewrite previousState_writes. split.
  - rewrite <- map_map with (f := fun issue : TIssue => issue "id") (g := toPropertyKey).
    rewrite <- snapshotWrites_In. split.
    + intros Hget.
      assert (k <> "__proto__") as Hk.
      { intros ->. apply JSFacts.get_In in Hget.
        apply (@JSFacts.writes_no_proto _
                 (snapshotWrites (map (fun issue : TIssue => issue "id") issues)) []);
          [intros []|].
        change "__proto__" with (fst ("__proto__", stored)). now apply in_map. }
      split; [exact Hk|].
      rewrite JSFacts.get_writes in Hget by exact Hk.
      apply JSFacts.lastWrite_In.
      destruct (JS.lastWrite k _); [exact Hget | discriminate].
    + intros [Hk Hin]. rewrite JSFacts.get_writes by exact Hk.
      destruct (JSFacts.lastWrite_written _ _ _ Hin) as [v Hv]. rewrite Hv.
      apply JSFacts.lastWrite_In in Hv.
      apply snapshotWrites_In in Hv, Hin. destruct Hv as [_ Hv], Hin as [_ Hin].
      congruence.
  - apply JSFacts.writes_NoDup. constructor.
Qed.

End PreviousStateFacts.
